(** * Checkers: the Python board, successor generation and search state

    A shallow embedding of [board.py]: the sparse board with its move
    generator ([SparseBoard]), and the caches and strategy map of the search
    ([ExploreState]).

    Conventions of the embedding.
    - Python [int] is [Z].
    - The dictionary [sparse_board : Dict[Tuple[int, int], int]] is a
      [gmap (Z * Z) Z].  The properties below are about the mapping only; the
      traversal [.items()] follows [map_to_list] (Python follows insertion
      order, which only changes the order in which successors are listed).
    - A raised exception is a value [Raise e] of the [result] monad.
    - Python [str] is [string], read as a sequence of code points below 256.
    - Python [float] is [pyfloat]: the two infinities, NaN, and finite values
      kept as exact rationals (Python rounds them to the nearest double).
    - The interpreter's built-in [hash] on [str] is a parameter [str_hash]. *)

From Stdlib Require Import ZArith QArith List Ascii String Lia.
From stdpp Require Import base option list gmap strings pretty sorting.

Local Open Scope Z_scope.

(** ** The Python runtime *)

Inductive exn : Set :=
  | KeyError
  | TypeError
  | ZeroDivisionError
  | Exception
  | OutOfFuel.

Inductive result (A : Type) : Type :=
  | Ok (a : A)
  | Raise (e : exn).
Arguments Ok {A} a.
Arguments Raise {A} e.

Global Instance result_ret : MRet result := λ A a, Ok a.
Global Instance result_bind : MBind result := λ A B k m,
  match m with
  | Ok a => k a
  | Raise e => Raise e
  end.

Definition is_Ok {A} (m : result A) : Prop := ∃ a, m = Ok a.

(** [for a in l: acc = f(acc, a)], stopping at the first exception. *)
Fixpoint foldlM {A B} (f : B → A → result B) (acc : B) (l : list A) : result B :=
  match l with
  | [] => Ok acc
  | a :: l' => acc' ← f acc a; foldlM f acc' l'
  end.

(** [d[k]]: a missing key raises [KeyError]. *)
Definition getitem {K V} `{Countable K} (d : gmap K V) (k : K) : result V :=
  match d !! k with
  | Some v => Ok v
  | None => Raise KeyError
  end.

(** [del d[k]]: a missing key raises [KeyError]. *)
Definition delitem {K V} `{Countable K} (d : gmap K V) (k : K) : result (gmap K V) :=
  match d !! k with
  | Some _ => Ok (delete k d)
  | None => Raise KeyError
  end.

(** Python floats, as far as the program uses them. *)
Inductive pyfloat : Set :=
  | NegInf
  | Finite (q : Q)
  | PosInf
  | NaN.

(** [f > 0] and [f < 0]. *)
Definition float_gt0 (f : pyfloat) : bool :=
  match f with
  | PosInf => true
  | Finite q => 0 <? Qnum q
  | _ => false
  end.
Definition float_lt0 (f : pyfloat) : bool :=
  match f with
  | NegInf => true
  | Finite q => Qnum q <? 0
  | _ => false
  end.

(** [n * f] for an integer [n]. *)
Definition int_mul_float (n : Z) (f : pyfloat) : pyfloat :=
  match f with
  | Finite q => Finite (inject_Z n * q)
  | NaN => NaN
  | PosInf => if 0 <? n then PosInf else if n <? 0 then NegInf else NaN
  | NegInf => if 0 <? n then NegInf else if n <? 0 then PosInf else NaN
  end.

(** [a / b] on integers: true division. *)
Definition true_div (a b : Z) : result pyfloat :=
  if b =? 0 then Raise ZeroDivisionError
  else Ok (Finite (inject_Z a / inject_Z b)).

(** ** The board *)

Record SparseBoard : Type := mkBoard {
  width : Z;
  height : Z;
  sparse_board : gmap (Z * Z) Z
}.

(** [SparseBoard()]: the default 8 by 8 empty board. *)
Definition new_board (w h : Z) : SparseBoard := mkBoard w h ∅.
Definition default_board : SparseBoard := new_board 8 8.

Definition with_cells (b : SparseBoard) (m : gmap (Z * Z) Z) : SparseBoard :=
  mkBoard (width b) (height b) m.

Definition _copy (self : SparseBoard) : SparseBoard :=
  with_cells (new_board (width self) (height self)) (sparse_board self).

(** The row on which a man of colour [val] is crowned. *)
Definition king_row (self : SparseBoard) (val : Z) : Z :=
  if 0 <? val then 0 else height self - 1.

(** The value written at the destination row [dest_y]. *)
Definition crowned (self : SparseBoard) (val dest_y : Z) : Z :=
  if Z.abs val =? 1
  then (if dest_y =? king_row self val then val * 2 else val)
  else val.

Definition _perform_move (self : SparseBoard) (x y : Z) (move : Z * Z)
    : result SparseBoard :=
  let new_board := _copy self in
  val ← getitem (sparse_board new_board) (x, y);
  cells ← delitem (sparse_board new_board) (x, y);
  let new_val := crowned self val (y + move.2) in
  Ok (with_cells new_board (<[(x + move.1, y + move.2) := new_val]> cells)).

Definition _perform_jump (self : SparseBoard) (x y : Z) (move : Z * Z)
    : result SparseBoard :=
  let new_board := _copy self in
  val ← getitem (sparse_board new_board) (x, y);
  cells ← delitem (sparse_board new_board) (x, y);
  cells ← delitem cells (x + move.1, y + move.2);
  let new_val := crowned self val (y + move.2 * 2) in
  Ok (with_cells new_board (<[(x + move.1 * 2, y + move.2 * 2) := new_val]> cells)).

(** [self.sparse_board.get(loc, 0) if 0 <= loc[0] < self.width and
    0 <= loc[1] < self.height else None] *)
Definition in_board (self : SparseBoard) (loc : Z * Z) : bool :=
  (0 <=? loc.1) && (loc.1 <? width self) && (0 <=? loc.2) && (loc.2 <? height self).

Definition occupation (self : SparseBoard) (loc : Z * Z) : option Z :=
  if in_board self loc then Some (default 0 (sparse_board self !! loc)) else None.

(** [[(1, -player), (-1, -player)]], extended for a king. *)
Definition potential_moves (is_king : bool) (player : Z) : list (Z * Z) :=
  [(1, - player); (-1, - player)] ++
  (if is_king then [(1, player); (-1, player)] else []).

(** [move_occupation * player < 0 and jump_occupation == 0] *)
Definition jump_open (move_occupation : Z) (jump_occupation : option Z) (player : Z) : bool :=
  (move_occupation * player <? 0) && bool_decide (jump_occupation = Some 0).

(** [_follow_jump]: the piece on [(x, y)] jumps along [move]; the search goes
    on from the landing square.  The occupation tests read [self], the board
    before the jump, as the source does.  [fuel] bounds the depth of the
    recursion. *)
Fixpoint _follow_jump (fuel : nat) (self : SparseBoard) (x y : Z) (move : Z * Z)
    (is_king : bool) (player : Z) : result (list SparseBoard) :=
  match fuel with
  | O => Raise OutOfFuel
  | S fuel' =>
    new_board ← _perform_jump self x y move;
    let new_x := x + move.1 * 2 in
    let new_y := y + move.2 * 2 in
    successors ← foldlM (λ successors move,
        let move_location := (new_x + move.1, new_y + move.2) in
        let jump_location := (new_x + move.1 * 2, new_y + move.2 * 2) in
        let move_occupation := occupation self move_location in
        let jump_occupation := occupation self jump_location in
        match move_occupation with
        | Some mo =>
            if jump_open mo jump_occupation player
            then more ← _follow_jump fuel' new_board new_x new_y move is_king player;
                 Ok (successors ++ more)
            else Ok successors
        | None => Ok successors
        end) [] (potential_moves is_king player);
    Ok (if bool_decide (length successors = 0%nat) then successors ++ [new_board]
        else successors)
  end.

Definition int_to_char (v : Z) : option ascii :=
  match v with
  | 1 => Some "r"%char
  | 2 => Some "R"%char
  | -1 => Some "b"%char
  | -2 => Some "B"%char
  | 0 => Some "."%char
  | _ => None
  end.

Definition char_to_int (c : ascii) : result Z :=
  if decide (c = "r"%char) then Ok 1
  else if decide (c = "R"%char) then Ok 2
  else if decide (c = "b"%char) then Ok (-1)
  else if decide (c = "B"%char) then Ok (-2)
  else Raise KeyError.

(** ** Text: [str.splitlines], [str.rstrip], [enumerate], [json.dumps] *)

Definition LF : ascii := "010"%char.
Definition CR : ascii := "013"%char.

(** The line boundaries of [str.splitlines] below U+0100. *)
Definition is_linebreak (c : ascii) : bool :=
  let n := nat_of_ascii c in
  bool_decide (n = 10 ∨ n = 11 ∨ n = 12 ∨ n = 13 ∨ n = 28 ∨ n = 29 ∨ n = 30 ∨ n = 133)%nat.

(** The whitespace of [str.rstrip()] below U+0100. *)
Definition is_whitespace (c : ascii) : bool :=
  let n := nat_of_ascii c in
  bool_decide ((9 ≤ n ∧ n ≤ 13) ∨ (28 ≤ n ∧ n ≤ 32) ∨ n = 133 ∨ n = 160)%nat.

(** [s.splitlines()]: lines without their ends; a carriage return followed
    by a line feed is one boundary; no empty line after a final boundary. *)
Fixpoint splitlines (s : list ascii) : list (list ascii) :=
  match s with
  | [] => []
  | c :: s' =>
      if is_linebreak c then
        [] :: (if decide (c = CR) then
                 match s' with
                 | c' :: s'' => if decide (c' = LF) then splitlines s'' else splitlines s'
                 | [] => splitlines s'
                 end
               else splitlines s')
      else
        match splitlines s' with
        | [] => [[c]]
        | l :: ls => (c :: l) :: ls
        end
  end.

(** The lines a text-mode file yields (universal newlines): each line keeps
    its end, read as a line feed. *)
Fixpoint readlines (s : list ascii) : list (list ascii) :=
  match s with
  | [] => []
  | c :: s' =>
      if decide (c = LF) then [LF] :: readlines s'
      else if decide (c = CR) then
        [LF] :: match s' with
                | c' :: s'' => if decide (c' = LF) then readlines s'' else readlines s'
                | [] => readlines s'
                end
      else
        match readlines s' with
        | [] => [[c]]
        | l :: ls => (c :: l) :: ls
        end
  end.

(** [line.rstrip()]: the line without its trailing whitespace. *)
Fixpoint rstrip (s : list ascii) : list ascii :=
  match s with
  | [] => []
  | c :: s' =>
      match rstrip s' with
      | [] => if is_whitespace c then [] else [c]
      | r => c :: r
      end
  end.

Fixpoint enumerate_from {A} (i : Z) (l : list A) : list (Z * A) :=
  match l with
  | [] => []
  | a :: l' => (i, a) :: enumerate_from (i + 1) l'
  end.
Definition enumerate {A} (l : list A) : list (Z * A) := enumerate_from 0 l.

(** [range(n)] *)
Definition range (n : Z) : list Z := seqZ 0 n.

(** [json.dumps] of a tuple of [((x, y), val)] items. *)
Definition json_item (item : Z * Z * Z) : string :=
  "[[" +:+ pretty item.1.1 +:+ ", " +:+ pretty item.1.2 +:+ "], "
       +:+ pretty item.2 +:+ "]".

Definition json_dumps (items : list (Z * Z * Z)) : string :=
  "[" +:+ String.concat ", " (json_item <$> items) +:+ "]".

(** The order of Python tuples [((x, y), val)]. *)
Definition tuple_le (a b : Z * Z * Z) : Prop :=
  a.1.1 < b.1.1 ∨
  (a.1.1 = b.1.1 ∧ (a.1.2 < b.1.2 ∨ (a.1.2 = b.1.2 ∧ a.2 ≤ b.2))).

Global Instance tuple_le_dec : RelDecision tuple_le.
Proof. intros a b. unfold tuple_le. apply _. Defined.

(** [sorted(items)] *)
Definition sorted (items : list (Z * Z * Z)) : list (Z * Z * Z) :=
  merge_sort tuple_le items.

(** ** Reading and printing a board *)

(** One character of a line: [if char != ".": board.sparse_board[(x, y)] =
    board.char_to_int[char]]. *)
Definition read_char (y : Z) (cells : gmap (Z * Z) Z) (xc : Z * ascii)
    : result (gmap (Z * Z) Z) :=
  let '(x, char) := xc in
  if decide (char ≠ "."%char)
  then val ← char_to_int char; Ok (<[(x, y) := val]> cells)
  else Ok cells.

Definition read_line (y : Z) (cells : gmap (Z * Z) Z) (line : list ascii)
    : result (gmap (Z * Z) Z) :=
  foldlM (read_char y) cells (enumerate (rstrip line)).

Definition read_lines (lines : list (list ascii)) : result SparseBoard :=
  let board := default_board in
  cells ← foldlM (λ cells '(y, line), read_line y cells line)
             (sparse_board board) (enumerate lines);
  Ok (with_cells board cells).

(** [read_from_file], on the text the file holds. *)
Definition read_from_file (content : string) : result SparseBoard :=
  read_lines (readlines (list_ascii_of_string content)).

Definition read_from_string (string : string) : result SparseBoard :=
  read_lines (splitlines (list_ascii_of_string string)).

(** [self.int_to_char.get(self.sparse_board.get((x, y), 0))], appended to the
    text; [None] cannot be appended to a [str]. *)
Definition __str__ (self : SparseBoard) : result string :=
  foldlM (λ board y,
      board ← foldlM (λ board x,
          match int_to_char (default 0 (sparse_board self !! (x, y))) with
          | Some c => Ok (board +:+ String c "")
          | None => Raise TypeError
          end) board (range (width self));
      Ok (board +:+ String LF ""))
    "" (range (height self)).

(** ** Terminal test and static evaluation *)

Definition values (self : SparseBoard) : list Z := (map_to_list (sparse_board self)).*2.

Definition is_end (self : SparseBoard) : pyfloat :=
  let '(red_pieces, black_pieces) :=
    foldl (λ '(red_pieces, black_pieces) val,
        if 0 <? val then (red_pieces + 1, black_pieces)
        else if val <? 0 then (red_pieces, black_pieces + 1)
        else (red_pieces, black_pieces))
      (0, 0) (values self) in
  if red_pieces =? 0 then NegInf
  else if black_pieces =? 0 then PosInf
  else Finite 0.

Definition evaluate (self : SparseBoard) : result pyfloat :=
  let '(total_score, total_pieces) :=
    foldl (λ '(total_score, total_pieces) val, (total_score + val, total_pieces + 1))
      (0, 0) (values self) in
  true_div total_score total_pieces.

Definition utility (self : SparseBoard) : result pyfloat := evaluate self.

(** ** Successor generation *)

(** One pass of the loop over [potential_moves] in [get_successors]; the
    accumulator is [(move_successors, jump_successors)].  The fuel given to
    [_follow_jump] is the number of pieces: every jump takes one piece off,
    so the recursion never uses it up ([follow_jump_spec]). *)
Definition try_move (self : SparseBoard) (player x y val : Z)
    (acc : list SparseBoard * list SparseBoard) (move : Z * Z)
    : result (list SparseBoard * list SparseBoard) :=
  let move_location := (x + move.1, y + move.2) in
  let jump_location := (x + move.1 * 2, y + move.2 * 2) in
  let move_occupation := occupation self move_location in
  let jump_occupation := occupation self jump_location in
  match move_occupation with
  | None => Ok acc
  | Some mo =>
      if negb (mo =? 0) then
        if jump_open mo jump_occupation player then
          more ← _follow_jump (size (sparse_board self)) self x y move
                   (val * player =? 2) player;
          Ok (acc.1, acc.2 ++ more)
        else Ok acc
      else if mo =? 0 then
        new_board ← _perform_move self x y move;
        Ok (acc.1 ++ [new_board], acc.2)
      else Raise Exception
  end.

(** One pass of the loop over the pieces. *)
Definition try_piece (self : SparseBoard) (player : Z)
    (acc : list SparseBoard * list SparseBoard) (item : Z * Z * Z)
    : result (list SparseBoard * list SparseBoard) :=
  let '((x, y), val) := item in
  if 0 <? val * player then
    foldlM (try_move self player x y val) acc
      (potential_moves (val * player =? 2) player)
  else Ok acc.

Definition collect_successors (self : SparseBoard) (player : Z)
    : result (list SparseBoard * list SparseBoard) :=
  foldlM (try_piece self player) ([], []) (map_to_list (sparse_board self)).

Section WithHash.
(** The interpreter's [hash] on [str]. *)
Context (str_hash : string → Z).

(** The text that is hashed:
    [json.dumps(tuple(sorted(self.sparse_board.items())), sort_keys=True)]. *)
Definition hash_key (self : SparseBoard) : string :=
  json_dumps (sorted (map_to_list (sparse_board self))).

Definition __hash__ (self : SparseBoard) : Z := str_hash (hash_key self).

(** The loop that keeps the first board of every hash. *)
Definition unique_step (acc : list SparseBoard * gset Z) (successor : SparseBoard)
    : list SparseBoard * gset Z :=
  if decide (__hash__ successor ∉ acc.2)
  then (acc.1 ++ [successor], acc.2 ∪ {[__hash__ successor]})
  else acc.

Definition unique_by_hash (successors : list SparseBoard) : list SparseBoard :=
  (foldl unique_step ([], ∅) successors).1.

Definition get_successors (self : SparseBoard) (player : Z)
    : result (list SparseBoard) :=
  '(move_successors, jump_successors) ← collect_successors self player;
  let successors :=
    if (0 <? length jump_successors)%nat then jump_successors else move_successors in
  Ok (unique_by_hash successors).
End WithHash.

(** ** The search state *)

(** The fields of [ExploreState] that the functions below read or write. *)
Record ExploreState : Type := mkExploreState {
  score_cache : gmap Z (pyfloat * Z * Z);
  use_score_cache : bool;
  strategy : gmap (Z * Z) (SparseBoard * pyfloat);
  cache_hits : Z
}.

Definition get_cached_score (self : ExploreState) (board : SparseBoard)
    (board_hash depth player : Z) : option pyfloat * ExploreState :=
  if negb (use_score_cache self) then (None, self)
  else
    match score_cache self !! board_hash with
    | Some (cached_score, cached_depth, cached_player) =>
        if (depth <=? cached_depth) && (player =? cached_player)
        then (Some cached_score,
              mkExploreState (score_cache self) (use_score_cache self)
                (strategy self) (cache_hits self + 1))
        else (None, self)
    | None => (None, self)
    end.

Definition cache_score (self : ExploreState) (board : SparseBoard)
    (board_hash depth player : Z) (score : pyfloat) : ExploreState :=
  mkExploreState (<[board_hash := (score, depth, player)]> (score_cache self))
    (use_score_cache self) (strategy self) (cache_hits self).

Section SearchWithHash.
Context (str_hash : string → Z).

Definition get_terminal_value_and_succ (self : ExploreState) (board : SparseBoard)
    (player : Z) : result (pyfloat * list SparseBoard) :=
  let value := is_end board in
  if float_gt0 value then Ok (PosInf, [])
  else if float_lt0 value then Ok (NegInf, [])
  else
    successors ← get_successors str_hash board player;
    if bool_decide (length successors = 0%nat)
    then Ok (int_mul_float player NegInf, [])
    else Ok (Finite 0, successors).

(** The [while] loop of [recover_best_path]; [fuel] bounds its passes. *)
Fixpoint recover_loop (fuel : nat) (self : ExploreState) (board : SparseBoard)
    (player : Z) (path : list SparseBoard) (in_path : gset Z)
    : result (list SparseBoard) :=
  match fuel with
  | O => Raise OutOfFuel
  | S fuel' =>
      match strategy self !! (__hash__ str_hash board, player) with
      | None => Ok path
      | Some (board', _) =>
          if decide (__hash__ str_hash board' ∈ in_path) then Ok path
          else recover_loop fuel' self board' (player * -1) (path ++ [board'])
                 (in_path ∪ {[__hash__ str_hash board']})
      end
  end.

(** [recover_best_path]: the loop starts from the path [[board]] and the
    empty set [in_path]; one pass more than the strategy map has entries is
    enough for it to end ([recover_best_path_returns]). *)
Definition recover_best_path (self : ExploreState) (board : SparseBoard)
    (player : Z) : result (list SparseBoard) :=
  recover_loop (S (size (strategy self))) self board player [board] ∅.
End SearchWithHash.

(** A string hash to run the program on concrete boards: the text read as a
    number in base 257, folded to 64 bits. *)
Definition sample_str_hash (s : string) : Z :=
  foldl (λ h c, (h * 257 + Z.of_nat (nat_of_ascii c) + 1) `mod` 2 ^ 64) 0
    (list_ascii_of_string s) - 2 ^ 63.

(** Boards from text, for the examples. *)
Definition board_of_items (items : list (Z * Z * Z)) : SparseBoard :=
  with_cells default_board (list_to_map items).

(** ** Vocabulary of the statements *)

(** The four piece values of the data model. *)
Definition is_piece (v : Z) : Prop := v = 1 ∨ v = 2 ∨ v = -1 ∨ v = -2.

Global Instance is_piece_dec v : Decision (is_piece v).
Proof. unfold is_piece. apply _. Defined.

(** Row [y] is the king row of the colour of [val]: row 0 for Red, the last
    row for Black. *)
Definition own_king_row (self : SparseBoard) (val y : Z) : Prop :=
  (0 < val ∧ y = 0) ∨ (val < 0 ∧ y = height self - 1).

Definition has_red (self : SparseBoard) : Prop :=
  ∃ k v, sparse_board self !! k = Some v ∧ 0 < v.
Definition has_black (self : SparseBoard) : Prop :=
  ∃ k v, sparse_board self !! k = Some v ∧ v < 0.

Definition Zsum (l : list Z) : Z := foldr Z.add 0 l.

(** Number of pieces on a board: [len(self.sparse_board)]. *)
Definition piece_count (self : SparseBoard) : nat := size (sparse_board self).

(** No square is stored with the value 0: empty squares are absent. *)
Definition no_zero (self : SparseBoard) : Prop :=
  ∀ k, sparse_board self !! k ≠ Some 0.

(** The piece on [(x, y)] can jump along [move]: the next square is occupied
    and the square behind it is free. *)
Definition jump_ready (self : SparseBoard) (x y : Z) (move : Z * Z) : Prop :=
  is_Some (sparse_board self !! (x, y)) ∧
  is_Some (sparse_board self !! (x + move.1, y + move.2)) ∧
  sparse_board self !! (x + move.1 * 2, y + move.2 * 2) = None.

Definition sideways (move : Z * Z) : Prop := move.1 = 1 ∨ move.1 = -1.

(** What every board returned by a jump sequence from [self] satisfies. *)
Definition jump_result (self b' : SparseBoard) : Prop :=
  (piece_count b' < piece_count self)%nat ∧ no_zero b' ∧
  width b' = width self ∧ height b' = height self.

(** Side [s] has a jump on [self]: one of its pieces has, in one of its
    directions, an opposing piece next to it and a free square of the board
    behind that piece. *)
Definition jump_available (self : SparseBoard) (s : Z) : Prop :=
  ∃ x y val move mo,
    sparse_board self !! (x, y) = Some val ∧ 0 < val * s ∧
    move ∈ potential_moves (val * s =? 2) s ∧
    occupation self (x + move.1, y + move.2) = Some mo ∧
    jump_open mo (occupation self (x + move.1 * 2, y + move.2 * 2)) s = true.

(** The piece on [(x, y)] has the jump along [move]. *)
Definition jump_here (self : SparseBoard) (s x y : Z) (move : Z * Z) : Prop :=
  ∃ mo, occupation self (x + move.1, y + move.2) = Some mo ∧
        jump_open mo (occupation self (x + move.1 * 2, y + move.2 * 2)) s = true.

(** The invariant of the two loops of [get_successors]. *)
Definition collected (self : SparseBoard) (s : Z)
    (acc : list SparseBoard * list SparseBoard) : Prop :=
  Forall (λ b', piece_count b' = piece_count self) acc.1 ∧
  Forall (jump_result self) acc.2 ∧
  (acc.2 ≠ [] → jump_available self s).

(** A red man on (2, 2) that jumps the black man on (3, 1) lands on (4, 0),
    its king row; a king on (4, 0) could go on over the black man on (5, 1). *)
Definition crowning_jump_board : SparseBoard :=
  board_of_items [((2, 2), 1); ((3, 1), -1); ((5, 1), -1)].
Definition crowning_jump_stop : SparseBoard :=
  board_of_items [((4, 0), 2); ((5, 1), -1)].
Definition crowning_jump_on : SparseBoard :=
  board_of_items [((6, 2), 2)].

(** Two kings that step forth and back: Red (1,1) to (2,2), Black (6,6) to
    (5,5), Red back, Black back. *)
Definition shuffle_A : SparseBoard := board_of_items [((1, 1), 2); ((6, 6), -2)].
Definition shuffle_B : SparseBoard := board_of_items [((2, 2), 2); ((6, 6), -2)].
Definition shuffle_C : SparseBoard := board_of_items [((2, 2), 2); ((5, 5), -2)].
Definition shuffle_D : SparseBoard := board_of_items [((1, 1), 2); ((5, 5), -2)].

(** The strategy map that sends each of the four positions to the next. *)
Definition shuffle_state (str_hash : string → Z) : ExploreState :=
  mkExploreState ∅ true
    (<[(__hash__ str_hash shuffle_A, 1) := (shuffle_B, Finite 0)]>
       (<[(__hash__ str_hash shuffle_B, -1) := (shuffle_C, Finite 0)]>
          (<[(__hash__ str_hash shuffle_C, 1) := (shuffle_D, Finite 0)]>
             (<[(__hash__ str_hash shuffle_D, -1) := (shuffle_A, Finite 0)]> ∅))))
    0.

(** The hashes of the boards that the strategy map can lead to. *)
Definition strategy_hashes (str_hash : string → Z) (self : ExploreState) : gset Z :=
  list_to_set ((λ kv, __hash__ str_hash kv.2.1) <$> map_to_list (strategy self)).

(** A black king in the corner, shut in by two red kings. *)
Definition cornered_king : SparseBoard :=
  board_of_items [((0, 0), -2); ((1, 1), 2); ((2, 2), 2)].

(** A red man one jump away from its king row. *)
Definition man_before_crown : SparseBoard :=
  board_of_items [((2, 2), 1); ((1, 1), -1)].

(** A search state whose score cache holds one entry. *)
Definition one_entry_state : ExploreState :=
  mkExploreState {[ 5 := (Finite 1, 3, 1) ]} true ∅ 0.

(** The characters a board text is made of. *)
Definition board_char (c : ascii) : Prop :=
  c = "."%char ∨ c = "r"%char ∨ c = "R"%char ∨ c = "b"%char ∨ c = "B"%char.

Global Instance board_char_dec c : Decision (board_char c).
Proof. unfold board_char. apply _. Defined.

(** Some line, once its trailing whitespace is stripped, holds a character
    that is not a board character. *)
Definition bad_lines (lines : list (list ascii)) : Prop :=
  ∃ line c, line ∈ lines ∧ c ∈ rstrip line ∧ ¬ board_char c.

(** The character printed for the square [(x, y)]. *)
Definition cell_char (self : SparseBoard) (y x : Z) : ascii :=
  default "."%char (int_to_char (default 0 (sparse_board self !! (x, y)))).

(** The text of a board, row by row. *)
Definition board_rows (self : SparseBoard) : list (list ascii) :=
  (λ y, cell_char self y <$> range (width self)) <$> range (height self).

(** The data model: every stored value is a piece and every occupied square
    lies on the board. *)
Definition valid_board (self : SparseBoard) : Prop :=
  ∀ k v, sparse_board self !! k = Some v → is_piece v ∧ in_board self k = true.

(** The squares read before [(x, y)], row by row. *)
Definition visited (x y : Z) (k : Z * Z) : Prop := k.2 < y ∨ (k.2 = y ∧ k.1 < x).

(** [cells] holds the pieces of [self] on the squares read before [(x, y)]. *)
Definition read_so_far (self : SparseBoard) (x y : Z) (cells : gmap (Z * Z) Z) : Prop :=
  ∀ k v, cells !! k = Some v ↔ sparse_board self !! k = Some v ∧ visited x y k.

(** The characters of a JSON integer. *)
Definition num_char (c : ascii) : Prop :=
  c = "-"%char ∨ ∃ d, (d < 10)%N ∧ c = pretty_N_char d.

(** A text that does not go on with a character of an integer. *)
Definition stops (r : list ascii) : Prop :=
  match r with
  | [] => True
  | c :: _ => ¬ num_char c
  end.

(** The other rank of the same colour: man to king, king to man. *)
Definition toggle_rank (v : Z) : Z :=
  if Z.abs v =? 1 then v * 2 else v `quot` 2.

(** The items of a JSON array, separated by a comma and a blank. *)
Fixpoint json_items (items : list (Z * Z * Z)) : list ascii :=
  match items with
  | [] => []
  | [item] => list_ascii_of_string (json_item item)
  | item :: items' =>
      list_ascii_of_string (json_item item) ++ list_ascii_of_string ", " ++ json_items items'
  end.

(** A red king on each of the 64 squares. *)
Definition all_kings : gmap (Z * Z) Z :=
  list_to_map ((λ k, ((k `mod` 8, k `div` 8), 2)) <$> seqZ 0 64).

(** The position whose red kings stand on the squares named by the bits of
    [i]: square [(x, y)] is bit [x + 8 * y]. *)
Definition bits_board (i : Z) : SparseBoard :=
  with_cells default_board
    (filter (λ kv, Z.testbit i (kv.1.1 + 8 * kv.1.2) = true) all_kings).

(** [2 ^ 64 + 1] positions: those of the 64-bit numbers and one with a black
    king. *)
Definition numbered_board (i : Z) : SparseBoard :=
  if i <? 2 ^ 64 then bits_board i else board_of_items [((0, 0), -2)].

(** ** The stack with constant time lookup *)

(** What [Stack.pop] can raise. *)
Inductive pop_exn : Set :=
  | IndexError
  | LookupKeyError.

Section StackOps.
Context {K : Type} `{Countable K}.

(** [class Stack]: the list of the items, the last pushed last, and the
    table that counts how often each item is on the list. *)
Record Stack : Type := mkStack {
  stack : list K;
  lookup : gmap K Z
}.

(** [Stack()] *)
Definition Stack_init : Stack := mkStack [] ∅.

Definition push (self : Stack) (item : K) : Stack :=
  let stack' := stack self ++ [item] in
  match lookup self !! item with
  | Some n => mkStack stack' (<[item := n + 1]> (lookup self))
  | None => mkStack stack' (<[item := 1]> (lookup self))
  end.

(** [list.pop()]: the last item and the list without it. *)
Fixpoint list_pop (l : list K) : option (K * list K) :=
  match l with
  | [] => None
  | [a] => Some (a, [])
  | a :: l' =>
      match list_pop l' with
      | Some (item, rest) => Some (item, a :: rest)
      | None => None
      end
  end.

Definition pop (self : Stack) : pop_exn + (K * Stack) :=
  match list_pop (stack self) with
  | None => inl IndexError
  | Some (item, stack') =>
      match lookup self !! item with
      | None => inl LookupKeyError
      | Some n =>
          let lookup' := <[item := n - 1]> (lookup self) in
          if n - 1 =? 0
          then inr (item, mkStack stack' (delete item lookup'))
          else inr (item, mkStack stack' lookup')
      end
  end.

(** [item in self] *)
Definition contains (self : Stack) (item : K) : bool :=
  bool_decide (is_Some (lookup self !! item)).

(** How often [item] is on a list. *)
Definition occurrences (item : K) (l : list K) : Z :=
  Z.of_nat (length (filter (λ a, a = item) l)).

(** The table counts the items of the list, and holds no count of 0. *)
Definition counted (self : Stack) : Prop :=
  ∀ item, lookup self !! item
          = if decide (occurrences item (stack self) = 0) then None
            else Some (occurrences item (stack self)).
End StackOps.
Arguments Stack K {_ _}.

(** ** The board from the other side *)

(** One pass of the loop of [invert]:
    [new_board.sparse_board[(x, self.height - y - 1)] = -val]. *)
Definition invert_step (self : SparseBoard) (cells : gmap (Z * Z) Z)
    (item : Z * Z * Z) : gmap (Z * Z) Z :=
  let '((x, y), val) := item in
  <[(x, height self - y - 1) := - val]> cells.

Definition invert (self : SparseBoard) : SparseBoard :=
  let new_board := new_board (width self) (height self) in
  with_cells new_board
    (foldl (invert_step self) (sparse_board new_board) (map_to_list (sparse_board self))).

(** [-f] on a float. *)
Definition float_neg (f : pyfloat) : pyfloat :=
  match f with
  | NegInf => PosInf
  | PosInf => NegInf
  | Finite q => Finite (- q)
  | NaN => NaN
  end.

(** The square above which [invert] puts the piece of square [k]. *)
Definition flip_row (h : Z) (k : Z * Z) : Z * Z := (k.1, h - k.2 - 1).

(** ** Positions of the data model *)

(** A position of the data model: every occupied square lies on the board
    and holds a piece, and no man stands on the king row of its colour. *)
Definition legal_position (self : SparseBoard) : Prop :=
  valid_board self ∧
  ∀ k v, sparse_board self !! k = Some v → Z.abs v = 1 → k.2 ≠ king_row self v.

(** A position of the data model on a board of the size of [self]. *)
Definition legal_on (self b' : SparseBoard) : Prop :=
  legal_position b' ∧ width b' = width self ∧ height b' = height self.

(** A red king in front of four black men set in a ring: it takes all four,
    one way round or the other, and ends where it started. *)
Definition ring_board : SparseBoard :=
  board_of_items [((2, 4), 2); ((3, 3), -1); ((5, 3), -1); ((5, 5), -1); ((3, 5), -1)].

(** ** The strategy map and the value caches *)

(** [a < b] on floats: false as soon as one side is not a number. *)
Definition float_lt (a b : pyfloat) : bool :=
  match a, b with
  | NaN, _ | _, NaN => false
  | _, NegInf => false
  | NegInf, _ => true
  | PosInf, _ => false
  | Finite _, PosInf => true
  | Finite p, Finite q => negb (Qle_bool q p)
  end.

(** [f * n] for an integer [n]; the callers pass the side, 1 or -1, for
    which the product is exact. *)
Definition float_mul_int (f : pyfloat) (n : Z) : pyfloat := int_mul_float n f.

(** [update_strategy]: the entry of [(board_hash, player)] is written when
    there is none, or when the stored score times [player] is below the new
    score times [player]. *)
Definition update_strategy (self : ExploreState) (current_board : SparseBoard)
    (board_hash : Z) (successor : SparseBoard) (player : Z) (score : pyfloat)
    : ExploreState :=
  if match strategy self !! (board_hash, player) with
     | None => true
     | Some entry => float_lt (float_mul_int entry.2 player) (float_mul_int score player)
     end
  then mkExploreState (score_cache self) (use_score_cache self)
         (<[(board_hash, player) := (successor, score)]> (strategy self))
         (cache_hits self)
  else self.

(** The fields of [ExploreState] that [get_utility] and [get_evaluation] read
    or write. *)
Record ValueCaches : Type := mkValueCaches {
  evaluation_cache : gmap Z pyfloat;
  utility_cache : gmap Z pyfloat;
  use_evaluation_cache : bool;
  use_utility_cache : bool
}.

(** [get_utility]: the value and the caches after the call.  When
    [board.utility()] raises, nothing has been written yet. *)
Definition get_utility (self : ValueCaches) (board : SparseBoard) (board_hash : Z)
    : result (pyfloat * ValueCaches) :=
  match (if use_utility_cache self then utility_cache self !! board_hash else None) with
  | Some cached => Ok (cached, self)
  | None =>
      utility ← utility board;
      Ok (utility,
          mkValueCaches (evaluation_cache self)
            (<[board_hash := utility]> (utility_cache self))
            (use_evaluation_cache self) (use_utility_cache self))
  end.

Definition get_evaluation (self : ValueCaches) (board : SparseBoard) (board_hash : Z)
    : result (pyfloat * ValueCaches) :=
  match (if use_evaluation_cache self then evaluation_cache self !! board_hash else None) with
  | Some cached => Ok (cached, self)
  | None =>
      evaluation ← evaluate board;
      Ok (evaluation,
          mkValueCaches (<[board_hash := evaluation]> (evaluation_cache self))
            (utility_cache self)
            (use_evaluation_cache self) (use_utility_cache self))
  end.

(** The boards of [more] follow one another in the strategy map, from
    [board] with [player] to move, the side changing at every step. *)
Fixpoint follows_strategy (str_hash : string → Z) (self : ExploreState)
    (board : SparseBoard) (player : Z) (more : list SparseBoard) : Prop :=
  match more with
  | [] => True
  | board' :: rest =>
      (∃ v, strategy self !! (__hash__ str_hash board, player) = Some (board', v)) ∧
      follows_strategy str_hash self board' (player * -1) rest
  end.

(** A search state with one strategy entry, for the examples. *)
Definition one_move_state (str_hash : string → Z) : ExploreState :=
  mkExploreState ∅ true
    {[ (__hash__ str_hash shuffle_A, 1) := (shuffle_B, Finite 1) ]} 0.

(** ** The board generator *)

(** The king row that [BoardGenerator] writes out: [0 if val > 0 else 7]. *)
Definition generator_king_row (val : Z) : Z := if 0 <? val then 0 else 7.

(** One pass of the loop [for multiple in [1, 2]] of [_perform_inverse_move]. *)
Definition inverse_move_step (board : SparseBoard) (x y val : Z) (pre_location : Z * Z)
    (pre_successors : list SparseBoard) (multiple : Z) : result (list SparseBoard) :=
  let new_board := _copy board in
  cells ← delitem (sparse_board new_board) (x, y);
  Ok (pre_successors ++
      [with_cells new_board (<[pre_location := val * multiple]> cells)]).

(** [_perform_inverse_move]: the piece on [(x, y)] is put back on
    [(x + move[0], y + move[1])]. *)
Definition _perform_inverse_move (board : SparseBoard) (x y : Z) (move : Z * Z)
    : result (list SparseBoard) :=
  val ← getitem (sparse_board board) (x, y);
  let king_row := generator_king_row val in
  let pre_location := (x + move.1, y + move.2) in
  if (y =? king_row) && (Z.abs val =? 1)
  then foldlM (inverse_move_step board x y val pre_location) [] [1; 2]
  else
    let new_board := _copy board in
    cells ← delitem (sparse_board new_board) (x, y);
    Ok ([] ++ [with_cells new_board (<[pre_location := val]> cells)]).

(** ** Jump sequences of a man *)

(** The jump sequences of a man of [player]: the piece on [(x, y)] of [self]
    jumps along [move], one of the two forward directions of a man, and
    either stops on the landing square or, when that square is not on its
    king row, goes on from there in the same way.  The sequence ends with the
    board [b'] and the piece on [(x', y')]. *)
Inductive man_jumps (player : Z)
    : SparseBoard → Z → Z → Z * Z → SparseBoard → Z → Z → Prop :=
  | man_jumps_stop self x y move nb :
      move ∈ potential_moves false player →
      _perform_jump self x y move = Ok nb →
      man_jumps player self x y move nb (x + move.1 * 2) (y + move.2 * 2)
  | man_jumps_on self x y move nb move' b' x' y' :
      move ∈ potential_moves false player →
      _perform_jump self x y move = Ok nb →
      y + move.2 * 2 ≠ king_row self player →
      man_jumps player nb (x + move.1 * 2) (y + move.2 * 2) move' b' x' y' →
      man_jumps player self x y move b' x' y'.

(** A red man on (1, 4) that jumps twice to reach its king row on (5, 0); a
    king on (5, 0) could go on over the black man on (6, 1). *)
Definition late_crowning_board : SparseBoard :=
  board_of_items [((1, 4), 1); ((2, 3), -1); ((4, 1), -1); ((6, 1), -1)].
Definition late_crowning_stop : SparseBoard :=
  board_of_items [((5, 0), 2); ((6, 1), -1)].
Definition late_crowning_on : SparseBoard :=
  board_of_items [((7, 2), 2)].

(** ** Boards and their own bounds *)

(** The part of a board that lies within its own bounds: the squares that
    [__str__] visits. *)
Definition on_board (self : SparseBoard) : SparseBoard :=
  with_cells self (filter (λ kv, in_board self kv.1 = true) (sparse_board self)).

(** A board of width and height 4 with a red man on (5, 5): outside the
    board, inside the bounds of the default board. *)
Definition far_piece_board : SparseBoard :=
  with_cells (new_board 4 4) {[ (5, 5) := 1 ]}.

(** * Properties *)

(** ** The [result] monad *)

Lemma bind_Ok {A B} (a : A) (k : A → result B) : (Ok a ≫= k) = k a.
Proof. reflexivity. Qed.

Lemma foldlM_app {A B} (f : B → A → result B) acc l1 l2 :
  foldlM f acc (l1 ++ l2) = (acc' ← foldlM f acc l1; foldlM f acc' l2).
Proof.
  revert acc. induction l1 as [|a l1 IH]; intros acc; simpl; [done|].
  destruct (f acc a) as [acc'|e]; simpl; [apply IH | done].
Qed.

(** An invariant of a loop that raises nothing on the way is kept to its end. *)
Lemma foldlM_invariant {A B} (I : B → Prop) (P : A → Prop) (f : B → A → result B) l :
  (∀ acc a, I acc → P a → ∃ acc', f acc a = Ok acc' ∧ I acc') →
  Forall P l → ∀ acc, I acc → ∃ acc', foldlM f acc l = Ok acc' ∧ I acc'.
Proof.
  intros Hstep Hl. induction Hl as [|a l Ha _ IH]; intros acc Hacc; simpl.
  - eauto.
  - destruct (Hstep acc a Hacc Ha) as (acc' & -> & Hacc'). simpl. eauto.
Qed.

Lemma bind_Ok_inv {A B} (m : result A) (k : A → result B) b :
  (m ≫= k) = Ok b → ∃ a, m = Ok a ∧ k a = Ok b.
Proof. destruct m as [a|e]; simpl; [eauto|discriminate]. Qed.

(** What every pass of a loop keeps is kept by the loop, when it returns. *)
Lemma foldlM_preserves {A B} (I : B → Prop) (f : B → A → result B) l :
  (∀ acc a acc', I acc → a ∈ l → f acc a = Ok acc' → I acc') →
  ∀ acc acc', I acc → foldlM f acc l = Ok acc' → I acc'.
Proof.
  induction l as [|a l IH]; intros Hstep acc acc' Hacc Hrun; simpl in Hrun.
  - by injection Hrun as <-.
  - apply bind_Ok_inv in Hrun as (acc1 & Hf & Hrun).
    apply (IH (λ acc0 a0 acc0' H0 Hin, Hstep acc0 a0 acc0' H0 (list_elem_of_further _ _ _ Hin))
             acc1 acc'); [|done].
    eapply Hstep; [done|by left|done].
Qed.

(** ** Promotion *)

Lemma crowned_piece self val dest_y :
  is_piece val →
  let nv := crowned self val dest_y in
  (0 < nv ↔ 0 < val) ∧
  (Z.abs nv = 2 ↔ Z.abs val = 2 ∨ own_king_row self val dest_y) ∧
  (Z.abs nv = 1 ↔ Z.abs val = 1 ∧ ¬ own_king_row self val dest_y).
Proof.
  intros Hv. unfold crowned, king_row, own_king_row.
  destruct Hv as [-> | [-> | [-> | ->]]]; simpl;
    repeat (case_match; try lia); lia.
Qed.

Lemma perform_move_Ok self x y move val :
  sparse_board self !! (x, y) = Some val →
  _perform_move self x y move =
    Ok (with_cells self (<[(x + move.1, y + move.2) := crowned self val (y + move.2)]>
                            (delete (x, y) (sparse_board self)))).
Proof.
  intros Hv. unfold _perform_move, getitem, delitem, _copy. simpl.
  rewrite Hv. reflexivity.
Qed.

Lemma perform_jump_Ok self x y move val w :
  sparse_board self !! (x, y) = Some val →
  sparse_board self !! (x + move.1, y + move.2) = Some w →
  (x + move.1, y + move.2) ≠ (x, y) →
  _perform_jump self x y move =
    Ok (with_cells self
          (<[(x + move.1 * 2, y + move.2 * 2) := crowned self val (y + move.2 * 2)]>
             (delete (x + move.1, y + move.2) (delete (x, y) (sparse_board self))))).
Proof.
  intros Hv Hw Hne. unfold _perform_jump, getitem, delitem, _copy. simpl.
  rewrite Hv. simpl. rewrite lookup_delete_ne by done. rewrite Hw. reflexivity.
Qed.

(** C7.  For every single step and every jump that successor generation
    applies (the moved piece [val] stands on [(x, y)]; for a jump the jumped
    square is occupied), the piece stands on the destination square of the
    resulting board with its colour kept, and it is a king there if and only
    if it was a king already or the destination row is the king row of its
    colour (row 0 for Red, row [height - 1] for Black); otherwise it is still
    a man. *)
Theorem promotion_exactly_at_destination self x y move val :
  sparse_board self !! (x, y) = Some val →
  is_piece val →
  (∃ b' nv,
      _perform_move self x y move = Ok b' ∧
      sparse_board b' !! (x + move.1, y + move.2) = Some nv ∧
      (0 < nv ↔ 0 < val) ∧
      (Z.abs nv = 2 ↔ Z.abs val = 2 ∨ own_king_row self val (y + move.2)) ∧
      (Z.abs nv = 1 ↔ Z.abs val = 1 ∧ ¬ own_king_row self val (y + move.2))) ∧
  (is_Some (sparse_board self !! (x + move.1, y + move.2)) →
   move.1 ≠ 0 →
   ∃ b' nv,
      _perform_jump self x y move = Ok b' ∧
      sparse_board b' !! (x + move.1 * 2, y + move.2 * 2) = Some nv ∧
      (0 < nv ↔ 0 < val) ∧
      (Z.abs nv = 2 ↔ Z.abs val = 2 ∨ own_king_row self val (y + move.2 * 2)) ∧
      (Z.abs nv = 1 ↔ Z.abs val = 1 ∧ ¬ own_king_row self val (y + move.2 * 2))).
Proof.
  intros Hv Hp. split.
  - eexists _, _. split; [by apply perform_move_Ok|].
    split; [apply lookup_insert_eq|]. by apply crowned_piece.
  - intros [w Hw] Hne. eexists _, _.
    split; [eapply perform_jump_Ok; eauto; intros [=]; lia|].
    split; [apply lookup_insert_eq|]. by apply crowned_piece.
Qed.

(** ** The score cache *)

(** C4.  Against a store whose entry for [h] is [(score0, d0, p0)], the probe
    returns a value only if the player is [p0] and the cached depth [d0] is
    at least the depth [d] asked for, and that value is [score0]; in every
    other case it returns [None].  With the cache switched on (the default)
    it does return [score0] in that case.  [cache_score] overwrites the entry
    for [h] with the triple given. *)
Theorem cached_score_probe_rule (self : ExploreState) (board : SparseBoard)
    (h d p : Z) (score0 : pyfloat) (d0 p0 : Z) :
  score_cache self !! h = Some (score0, d0, p0) →
  (∀ s, (get_cached_score self board h d p).1 = Some s →
        s = score0 ∧ p = p0 ∧ d ≤ d0) ∧
  (¬ (p = p0 ∧ d ≤ d0) → (get_cached_score self board h d p).1 = None) ∧
  (use_score_cache self = true → p = p0 → d ≤ d0 →
     (get_cached_score self board h d p).1 = Some score0) ∧
  (∀ score' d' p',
     score_cache (cache_score self board h d' p' score') !! h = Some (score', d', p')).
Proof.
  intros Hh. unfold get_cached_score, cache_score. rewrite Hh.
  destruct (use_score_cache self); simpl;
    destruct (Z.leb_spec d d0), (Z.eqb_spec p p0); simpl;
    repeat split; intros; simplify_eq/=; try done; try lia;
    try (by rewrite lookup_insert_eq); naive_solver lia.
Qed.

(** ** Terminal test *)

Lemma is_end_count_bounds (l : list Z) (r b : Z) :
  ∃ r' b',
    foldl (λ '(red_pieces, black_pieces) val,
      if 0 <? val then (red_pieces + 1, black_pieces)
      else if val <? 0 then (red_pieces, black_pieces + 1)
      else (red_pieces, black_pieces)) (r, b) l = (r', b') ∧
    r ≤ r' ∧ b ≤ b' ∧
    (r' = r ↔ Forall (λ v, ¬ 0 < v) l) ∧
    (b' = b ↔ Forall (λ v, ¬ v < 0) l).
Proof.
  revert r b. induction l as [|v l IH]; intros r b; simpl.
  - exists r, b. repeat split; auto with lia.
  - destruct (Z.ltb_spec 0 v); [|destruct (Z.ltb_spec v 0)].
    + destruct (IH (r + 1) b) as (r' & b' & -> & ? & ? & Hr & Hb).
      exists r', b'. repeat split; try lia.
      * intros H'; inversion H'; lia.
      * intros ->. constructor; [lia|]. by apply Hb.
      * intros H'; inversion H'; subst. by apply Hb.
    + destruct (IH r (b + 1)) as (r' & b' & -> & ? & ? & Hr & Hb).
      exists r', b'. repeat split; try lia.
      * intros ->. constructor; [lia|]. by apply Hr.
      * intros H'; inversion H'; subst. by apply Hr.
      * intros H'; inversion H'; lia.
    + destruct (IH r b) as (r' & b' & -> & ? & ? & Hr & Hb).
      exists r', b'. repeat split; try lia.
      * intros ->. constructor; [lia|]. by apply Hr.
      * intros H'; inversion H'; subst. by apply Hr.
      * intros ->. constructor; [lia|]. by apply Hb.
      * intros H'; inversion H'; subst. by apply Hb.
Qed.

Lemma values_Forall (P : Z → Prop) self :
  Forall P (values self) ↔ ∀ k v, sparse_board self !! k = Some v → P v.
Proof.
  unfold values. rewrite Forall_forall. split.
  - intros Hall k v Hk. apply Hall.
    apply list_elem_of_fmap. exists (k, v). split; [done|].
    by apply elem_of_map_to_list.
  - intros Hall v Hin.
    apply list_elem_of_fmap in Hin as ([k v'] & -> & Hin).
    apply elem_of_map_to_list in Hin. eauto.
Qed.

(** [is_end] is minus infinity when Red has no piece, plus infinity when Red
    has one and Black has none, and 0 when both colours are present. *)
Lemma is_end_spec self :
  (¬ has_red self → is_end self = NegInf) ∧
  (has_red self → ¬ has_black self → is_end self = PosInf) ∧
  (has_red self → has_black self → is_end self = Finite 0).
Proof.
  unfold is_end.
  destruct (is_end_count_bounds (values self) 0 0) as (r & b & -> & Hr0 & Hb0 & Hr & Hb).
  rewrite values_Forall in Hr, Hb.
  assert (r = 0 ↔ ¬ has_red self) as Hred.
  { rewrite Hr. unfold has_red. split.
    - intros Hall (k & v & Hk & Hv). by apply (Hall k v).
    - intros Hno k v Hk Hv. apply Hno. eauto. }
  assert (b = 0 ↔ ¬ has_black self) as Hblack.
  { rewrite Hb. unfold has_black. split.
    - intros Hall (k & v & Hk & Hv). by apply (Hall k v).
    - intros Hno k v Hk Hv. apply Hno. eauto. }
  destruct (Z.eqb_spec r 0), (Z.eqb_spec b 0); tauto.
Qed.

(** C5.  With both colours on the board [is_end] is 0, and if the side [s]
    to move then has no successor, [get_terminal_value_and_succ] returns
    [s] times minus infinity (minus infinity for Red, [s = 1]; plus infinity
    for Black, [s = -1]) and no successor.  When [is_end] is an infinity, that
    infinity is returned with no successor. *)
Theorem no_move_means_loss (str_hash : string → Z) (self : ExploreState)
    (board : SparseBoard) (s : Z) :
  s = 1 ∨ s = -1 →
  (has_red board → has_black board →
     is_end board = Finite 0 ∧
     (get_successors str_hash board s = Ok [] →
      get_terminal_value_and_succ str_hash self board s
        = Ok (int_mul_float s NegInf, []) ∧
      int_mul_float s NegInf = (if decide (s = 1) then NegInf else PosInf))) ∧
  (is_end board = PosInf →
     get_terminal_value_and_succ str_hash self board s = Ok (PosInf, [])) ∧
  (is_end board = NegInf →
     get_terminal_value_and_succ str_hash self board s = Ok (NegInf, [])).
Proof.
  intros Hs. unfold get_terminal_value_and_succ.
  split; [|split].
  - intros Hred Hblack.
    destruct (is_end_spec board) as (_ & _ & Hboth).
    specialize (Hboth Hred Hblack). rewrite Hboth. split; [done|].
    intros Hnone. rewrite Hnone. simpl. split; [done|].
    destruct Hs as [-> | ->]; reflexivity.
  - intros ->. reflexivity.
  - intros ->. reflexivity.
Qed.

(** ** Static evaluation *)

Lemma evaluate_totals (l : list Z) (s n : Z) :
  foldl (λ '(total_score, total_pieces) val, (total_score + val, total_pieces + 1))
    (s, n) l = (s + Zsum l, n + Z.of_nat (length l)).
Proof.
  revert s n. induction l as [|v l IH]; intros s n; simpl.
  - f_equal; lia.
  - rewrite IH. unfold Zsum. simpl. f_equal; lia.
Qed.

Lemma length_values self : length (values self) = piece_count self.
Proof.
  unfold values, piece_count. rewrite length_fmap. apply length_map_to_list.
Qed.

(** C10.  On a board with at least one piece [evaluate] returns the sum of
    the piece values divided by the number of pieces, and raises nothing; on
    the empty board the division is by zero and [ZeroDivisionError] is
    raised.  [utility] is [evaluate]. *)
Theorem evaluate_defined_on_pieces (self : SparseBoard) :
  (sparse_board self ≠ ∅ →
     (0 < piece_count self)%nat ∧
     evaluate self
       = Ok (Finite (inject_Z (Zsum (values self))
                     / inject_Z (Z.of_nat (piece_count self))))) ∧
  (sparse_board self = ∅ → evaluate self = Raise ZeroDivisionError) ∧
  utility self = evaluate self.
Proof.
  unfold utility, evaluate. rewrite evaluate_totals, length_values, !Z.add_0_l.
  unfold true_div, piece_count.
  split; [|split; [|done]].
  - intros Hne.
    assert (size (sparse_board self) ≠ 0%nat) as Hsz
      by (by apply map_size_non_empty_iff).
    split; [lia|].
    destruct (Z.eqb_spec (Z.of_nat (size (sparse_board self))) 0) as [E|]; [lia|done].
  - intros ->. reflexivity.
Qed.

(** ** Jumps *)

Lemma occupation_Some self loc v :
  occupation self loc = Some v →
  in_board self loc = true ∧ default 0 (sparse_board self !! loc) = v.
Proof. unfold occupation. case_match; naive_solver. Qed.

Lemma occupation_piece self loc v :
  occupation self loc = Some v → v ≠ 0 → sparse_board self !! loc = Some v.
Proof.
  intros [_ Hv]%occupation_Some Hne.
  destruct (sparse_board self !! loc); simpl in *; congruence.
Qed.

Lemma occupation_free self loc :
  no_zero self → occupation self loc = Some 0 → sparse_board self !! loc = None.
Proof.
  intros Hnz [_ Hv]%occupation_Some.
  destruct (sparse_board self !! loc) as [v|] eqn:E; [|done].
  simpl in Hv. subst v. by destruct (Hnz loc).
Qed.

Lemma jump_open_landing self mo loc player :
  jump_open mo (occupation self loc) player = true → in_board self loc = true.
Proof.
  unfold jump_open. intros [_ Hfree%bool_decide_eq_true]%andb_true_iff.
  by apply occupation_Some in Hfree as [? _].
Qed.

Lemma crowned_nonzero self val dest_y : val ≠ 0 → crowned self val dest_y ≠ 0.
Proof. unfold crowned. intros. repeat case_match; lia. Qed.

Lemma potential_moves_sideways is_king player :
  Forall sideways (potential_moves is_king player).
Proof.
  unfold potential_moves, sideways.
  unfold potential_moves, sideways.
  destruct is_king; simpl; repeat (constructor; [simpl; lia|]); constructor.
Qed.

Lemma perform_jump_ready self x y move :
  no_zero self → jump_ready self x y move → sideways move →
  ∃ nb, _perform_jump self x y move = Ok nb ∧
        width nb = width self ∧ height nb = height self ∧
        no_zero nb ∧
        piece_count self = S (piece_count nb) ∧
        (2 ≤ piece_count self)%nat ∧
        is_Some (sparse_board nb !! (x + move.1 * 2, y + move.2 * 2)) ∧
        (∀ k, k ≠ (x + move.1 * 2, y + move.2 * 2) →
              sparse_board self !! k = None → sparse_board nb !! k = None) ∧
        (∀ k, k ≠ (x, y) → k ≠ (x + move.1, y + move.2) →
              k ≠ (x + move.1 * 2, y + move.2 * 2) →
              sparse_board nb !! k = sparse_board self !! k).
Proof.
  intros Hnz ([val Hval] & [w Hw] & Hfree) Hside.
  assert ((x + move.1, y + move.2) ≠ (x, y)) as Hne
    by (intros [=]; unfold sideways in Hside; lia).
  eexists. split; [by eapply perform_jump_Ok|].
  unfold piece_count, no_zero. simpl.
  split; [done|]. split; [done|].
  assert (delete (x + move.1, y + move.2) (delete (x, y) (sparse_board self))
            !! (x + move.1 * 2, y + move.2 * 2) = None) as Hd.
  { rewrite !lookup_delete_None. auto. }
  assert (sparse_board self !! (x, y) ≠ Some 0) as Hv0 by apply Hnz.
  repeat split.
  - intros k. destruct (decide (k = (x + move.1 * 2, y + move.2 * 2))) as [->|Hk].
    + rewrite lookup_insert_eq. intros [=Hc].
      apply crowned_nonzero in Hc; [done|]. congruence.
    + rewrite lookup_insert_ne by done. intros Hk0.
      apply lookup_delete_Some in Hk0 as [_ Hk0].
      apply lookup_delete_Some in Hk0 as [_ Hk0]. by apply (Hnz k).
  - rewrite map_size_insert_None by done.
    rewrite map_size_delete_Some by (rewrite lookup_delete_ne by done; eauto).
    rewrite map_size_delete_Some by eauto.
    assert (size (delete (x, y) (sparse_board self)) ≠ 0%nat) as Hsz.
    2:{ pose proof (map_size_delete_Some (x, y) (sparse_board self) (ltac:(eauto))). lia. }
    apply map_size_non_empty_iff. intros E.
    assert (delete (x, y) (sparse_board self) !! (x + move.1, y + move.2) = Some w)
      as Hc by (by rewrite lookup_delete_ne).
    rewrite E in Hc. by rewrite lookup_empty in Hc.
  - assert (size (delete (x, y) (sparse_board self)) ≠ 0%nat).
    { apply map_size_non_empty_iff. intros E.
      assert (delete (x, y) (sparse_board self) !! (x + move.1, y + move.2) = Some w)
        as Hc by (by rewrite lookup_delete_ne).
      rewrite E in Hc. by rewrite lookup_empty in Hc. }
    pose proof (map_size_delete_Some (x, y) (sparse_board self) (ltac:(eauto))). lia.
  - rewrite lookup_insert_eq. eauto.
  - intros k Hk Hnone. rewrite lookup_insert_ne by done.
    rewrite !lookup_delete_None. auto.
  - intros k H1 H2 H3. rewrite lookup_insert_ne by done.
    by rewrite !lookup_delete_ne.
Qed.

Lemma jump_result_trans self nb b' :
  (piece_count nb < piece_count self)%nat →
  width nb = width self → height nb = height self →
  jump_result nb b' → jump_result self b'.
Proof. unfold jump_result. intros ? Hw Hh (? & ? & -> & ->). auto with lia. Qed.

Lemma follow_jump_S fuel self x y move is_king player :
  _follow_jump (S fuel) self x y move is_king player =
    (new_board ← _perform_jump self x y move;
     successors ← foldlM (λ successors move',
         match occupation self (x + move.1 * 2 + move'.1, y + move.2 * 2 + move'.2) with
         | Some mo =>
             if jump_open mo
                  (occupation self (x + move.1 * 2 + move'.1 * 2,
                                    y + move.2 * 2 + move'.2 * 2)) player
             then more ← _follow_jump fuel new_board (x + move.1 * 2) (y + move.2 * 2)
                           move' is_king player;
                  Ok (successors ++ more)
             else Ok successors
         | None => Ok successors
         end) [] (potential_moves is_king player);
     Ok (if bool_decide (length successors = 0%nat) then successors ++ [new_board]
         else successors)).
Proof. reflexivity. Qed.

(** A jump sequence raises nothing, needs no more fuel than there are pieces,
    and returns at least one board, each with fewer pieces. *)
Lemma follow_jump_spec (fuel : nat) :
  ∀ self x y move is_king player,
    no_zero self → jump_ready self x y move → sideways move →
    (piece_count self ≤ fuel)%nat →
    ∃ l, _follow_jump fuel self x y move is_king player = Ok l ∧ l ≠ [] ∧
         Forall (jump_result self) l.
Proof.
  induction fuel as [|fuel IH]; intros self x y move is_king player Hnz Hready Hside Hfuel.
  - destruct (perform_jump_ready self x y move) as (? & _ & _ & _ & _ & _ & ? & _); [done..|lia].
  - destruct (perform_jump_ready self x y move)
      as (nb & Hnb & Hw & Hh & Hnz' & Hcount & _ & Hland & Hnone & Hsame); [done..|].
    rewrite follow_jump_S, Hnb, bind_Ok.
    set (step := λ (successors : list SparseBoard) (move' : Z * Z), _).
    assert (∃ l, foldlM step [] (potential_moves is_king player) = Ok l ∧
                 Forall (jump_result self) l) as (l & -> & Hl).
    { apply (foldlM_invariant (Forall (jump_result self)) sideways);
        [|apply potential_moves_sideways|constructor].
      intros acc move' Hacc Hside'. unfold step.
      destruct (occupation self _) as [mo|] eqn:Emo; [|eauto].
      destruct (jump_open mo _ player) eqn:Eopen; [|eauto].
      apply andb_true_iff in Eopen as [Hopp Hfree].
      apply Z.ltb_lt in Hopp. apply bool_decide_eq_true in Hfree.
      apply occupation_piece in Emo; [|lia].
      apply occupation_free in Hfree; [|done].
      destruct Hready as ([val Hval] & _ & _).
      unfold sideways in Hside, Hside'.
      destruct (IH nb (x + move.1 * 2) (y + move.2 * 2) move' is_king player)
        as (more & -> & _ & Hmore); [done| |done|lia|].
      { split; [done|]. split.
        - rewrite Hsame; [eauto|intros [=]; lia| |intros [=]; lia].
          intros [=Hx Hy].
          replace (x + move.1 * 2 + move'.1 * 2) with x in Hfree by lia.
          replace (y + move.2 * 2 + move'.2 * 2) with y in Hfree by lia.
          congruence.
        - apply Hnone; [intros [=]; lia|done]. }
      simpl. eexists. split; [done|]. apply Forall_app. split; [done|].
      eapply Forall_impl; [exact Hmore|]. intros b'.
      apply jump_result_trans; [lia|done..]. }
    rewrite bind_Ok. eexists. split; [done|].
    case_bool_decide as Hlen.
    + apply nil_length_inv in Hlen as ->. simpl. split; [done|].
      constructor; [|constructor]. unfold jump_result. repeat split; [lia|done..].
    + split; [|done]. by intros ->.
Qed.

(** ** Successor generation *)

Lemma perform_move_free self x y move val :
  sparse_board self !! (x, y) = Some val →
  sparse_board self !! (x + move.1, y + move.2) = None →
  ∃ nb, _perform_move self x y move = Ok nb ∧ piece_count nb = piece_count self.
Proof.
  intros Hval Hfree. eexists. split; [by eapply perform_move_Ok|].
  unfold piece_count. simpl.
  rewrite map_size_insert_None by (rewrite lookup_delete_None; auto).
  rewrite map_size_delete_Some by eauto.
  assert (size (sparse_board self) ≠ 0%nat); [|lia].
  apply map_size_non_empty_iff. intros E. rewrite E in Hval.
  by rewrite lookup_empty in Hval.
Qed.

Lemma try_move_spec self s x y val acc move :
  no_zero self →
  sparse_board self !! (x, y) = Some val → 0 < val * s →
  move ∈ potential_moves (val * s =? 2) s →
  collected self s acc →
  ∃ acc', try_move self s x y val acc move = Ok acc' ∧ collected self s acc' ∧
          (acc.2 ≠ [] → acc'.2 ≠ []) ∧
          (jump_here self s x y move → acc'.2 ≠ []).
Proof.
  intros Hnz Hval Hown Hmove (Hms & Hjs & Hav). unfold try_move, jump_here.
  assert (sideways move) as Hside.
  { pose proof (potential_moves_sideways (val * s =? 2) s) as Hall.
    rewrite Forall_forall in Hall. by apply Hall. }
  destruct (occupation self (x + move.1, y + move.2)) as [mo|] eqn:Emo.
  2:{ exists acc. repeat split; try done. by intros (? & [=] & _). }
  destruct (Z.eqb_spec mo 0) as [->|Hmo]; simpl.
  - apply occupation_free in Emo; [|done].
    destruct (perform_move_free self x y move val) as (nb & -> & Hcount); [done..|].
    rewrite bind_Ok. eexists. split; [done|]. simpl. repeat split; try done.
    + apply Forall_app. split; [done|]. by constructor.
    + intros (mo & [= <-] & Hopen). unfold jump_open in Hopen.
      apply andb_true_iff in Hopen as [Hopp%Z.ltb_lt _]. lia.
  - destruct (jump_open mo _ s) eqn:Eopen.
    2:{ exists acc. repeat split; try done.
        intros (mo' & [= <-] & Hopen). congruence. }
    assert (jump_available self s) as Hjump.
    { exists x, y, val, move, mo. by rewrite Emo. }
    apply andb_true_iff in Eopen as [_ Hfree%bool_decide_eq_true].
    apply occupation_piece in Emo; [|done].
    apply occupation_free in Hfree; [|done].
    destruct (follow_jump_spec (size (sparse_board self)) self x y move
                (val * s =? 2) s) as (more & -> & Hne & Hmore); [done| |done|done|].
    { split; [eauto|]. split; [eauto|done]. }
    rewrite bind_Ok. eexists. split; [done|]. simpl. repeat split; try done.
    + apply Forall_app. by split.
    + intros _ E. apply app_eq_nil in E as [_ E]. done.
    + intros _ E. apply app_eq_nil in E as [_ E]. done.
Qed.

(** A loop whose passes keep an invariant [I], keep [J] once it holds, and
    establish [J] at the element [a] ends with both. *)
Lemma foldlM_trigger {A B} (I J : B → Prop) (P T : A → Prop) (f : B → A → result B) l a :
  (∀ acc x, I acc → P x →
     ∃ acc', f acc x = Ok acc' ∧ I acc' ∧ (J acc → J acc') ∧ (T x → J acc')) →
  Forall P l → a ∈ l → T a →
  ∀ acc, I acc → ∃ acc', foldlM f acc l = Ok acc' ∧ I acc' ∧ J acc'.
Proof.
  intros Hstep Hl Hin Ha acc Hacc.
  apply list_elem_of_split in Hin as (l1 & l2 & ->).
  apply Forall_app in Hl as [Hl1 Hl2]. apply Forall_cons in Hl2 as [Hpa Hl2].
  rewrite foldlM_app.
  destruct (foldlM_invariant I P f l1) with (acc := acc) as (acc1 & -> & Hacc1);
    [|done..|].
  { intros acc0 x0 H0 Hx0.
    destruct (Hstep acc0 x0 H0 Hx0) as (acc'' & ? & ? & _). eauto. }
  rewrite bind_Ok. simpl.
  destruct (Hstep acc1 a) as (acc2 & -> & Hacc2 & _ & HJ); [done..|].
  rewrite bind_Ok.
  destruct (foldlM_invariant (λ acc, I acc ∧ J acc) P f l2) with (acc := acc2)
    as (acc3 & -> & Hacc3 & HJ3); [|done|by auto|by eauto].
  intros acc' x [HI HJ'] Hx.
  destruct (Hstep acc' x HI Hx) as (acc'' & -> & ? & ? & _). eauto.
Qed.

Lemma try_piece_spec self s acc x y val :
  no_zero self →
  sparse_board self !! (x, y) = Some val →
  collected self s acc →
  ∃ acc', try_piece self s acc ((x, y), val) = Ok acc' ∧ collected self s acc' ∧
          (acc.2 ≠ [] → acc'.2 ≠ []) ∧
          ((0 < val * s ∧ ∃ move, move ∈ potential_moves (val * s =? 2) s ∧
                                  jump_here self s x y move) → acc'.2 ≠ []).
Proof.
  intros Hnz Hval Hacc. unfold try_piece.
  destruct (Z.ltb_spec 0 (val * s)) as [Hown|Hother].
  2:{ exists acc. repeat split; try apply Hacc; [done|]. intros [? _]. lia. }
  set (P := λ move : Z * Z, move ∈ potential_moves (val * s =? 2) s).
  assert (Forall P (potential_moves (val * s =? 2) s)) as HP
    by (by apply Forall_forall).
  assert (∀ acc0 move, collected self s acc0 → P move →
            ∃ acc', try_move self s x y val acc0 move = Ok acc' ∧ collected self s acc' ∧
                    (acc0.2 ≠ [] → acc'.2 ≠ []) ∧
                    (jump_here self s x y move → acc'.2 ≠ [])) as Hstep.
  { intros acc0 move Hacc0 Hmove. by apply try_move_spec. }
  destruct (decide (acc.2 = [])) as [Hnil|Hne].
  - destruct (foldlM_invariant (collected self s) P (try_move self s x y val)
                (potential_moves (val * s =? 2) s)) with (acc := acc)
      as (acc' & Hrun & Hacc'); [|done..|].
    { intros acc0 move H0 Hm. destruct (Hstep acc0 move H0 Hm) as (? & ? & ? & _). eauto. }
    exists acc'. repeat split; try apply Hacc'; [done|done|].
    intros (_ & move & Hmove & Hjump).
    destruct (foldlM_trigger (collected self s) (λ acc, acc.2 ≠ []) P
                (jump_here self s x y) (try_move self s x y val)
                (potential_moves (val * s =? 2) s) move Hstep HP Hmove Hjump acc Hacc)
      as (acc'' & Hrun' & _ & Hne'').
    congruence.
  - destruct (foldlM_invariant (λ acc, collected self s acc ∧ acc.2 ≠ []) P
                (try_move self s x y val)
                (potential_moves (val * s =? 2) s)) with (acc := acc)
      as (acc' & Hrun & Hacc' & Hne'); [|done..|].
    { intros acc0 move [H0 Hn0] Hm.
      destruct (Hstep acc0 move H0 Hm) as (? & ? & ? & ? & _). eauto. }
    exists acc'. by repeat split; try apply Hacc'.
Qed.

(** The two lists that the loop over the pieces builds: single steps, all
    with as many pieces as [self], and jump sequences, all with fewer; the
    second list is not empty exactly when a jump is available. *)
Lemma collect_successors_spec self s :
  no_zero self →
  ∃ ms js, collect_successors self s = Ok (ms, js) ∧
    Forall (λ b', piece_count b' = piece_count self) ms ∧
    Forall (jump_result self) js ∧
    (js ≠ [] ↔ jump_available self s).
Proof.
  intros Hnz. unfold collect_successors.
  set (P := λ item : Z * Z * Z, sparse_board self !! item.1 = Some item.2).
  set (T := λ item : Z * Z * Z,
         0 < item.2 * s ∧ ∃ move, move ∈ potential_moves (item.2 * s =? 2) s ∧
                                  jump_here self s item.1.1 item.1.2 move).
  assert (Forall P (map_to_list (sparse_board self))) as HP.
  { apply Forall_forall. intros [k v] Hin. by apply elem_of_map_to_list in Hin. }
  assert (∀ acc item, collected self s acc → P item →
            ∃ acc', try_piece self s acc item = Ok acc' ∧ collected self s acc' ∧
                    (acc.2 ≠ [] → acc'.2 ≠ []) ∧ (T item → acc'.2 ≠ [])) as Hstep.
  { intros acc [[x y] val] Hacc Hitem. by apply try_piece_spec. }
  assert (collected self s ([], [])) as H0.
  { split; [constructor|]. split; [constructor|]. done. }
  destruct (foldlM_invariant (collected self s) P (try_piece self s)
              (map_to_list (sparse_board self))) with (acc := ([], []) : list SparseBoard * list SparseBoard)
    as ([ms js] & Hrun & Hms & Hjs & Hav); [|done..|].
  { intros acc item Hacc Hitem.
    destruct (Hstep acc item Hacc Hitem) as (? & ? & ? & _). eauto. }
  exists ms, js. split; [done|]. split; [done|]. split; [done|].
  split; [done|].
  intros (x & y & val & move & mo & Hval & Hown & Hmove & Hmo & Hopen).
  destruct (foldlM_trigger (collected self s) (λ acc, acc.2 ≠ []) P T
              (try_piece self s) (map_to_list (sparse_board self)) ((x, y), val)
              Hstep HP) with (acc := ([], []) : list SparseBoard * list SparseBoard)
    as (acc' & Hrun' & _ & Hne'); [| |done|].
  - by apply elem_of_map_to_list.
  - split; [done|]. exists move. split; [done|]. by exists mo.
  - rewrite Hrun in Hrun'. by injection Hrun' as <-.
Qed.

Section Dedup.
Context (str_hash : string → Z).

Lemma unique_fold_subset l : ∀ acc b,
  b ∈ (foldl (unique_step str_hash) acc l).1 → b ∈ acc.1 ∨ b ∈ l.
Proof.
  induction l as [|a l IH]; intros acc b Hb; simpl in *; [by left|].
  apply IH in Hb as [Hb|Hb]; [|right; by right].
  unfold unique_step in Hb. case_decide; simpl in Hb; [|by left].
  apply elem_of_app in Hb as [Hb|Hb]; [by left|].
  apply list_elem_of_singleton in Hb as ->. right. by left.
Qed.

Lemma unique_fold_grows l : ∀ acc,
  acc.1 ≠ [] → (foldl (unique_step str_hash) acc l).1 ≠ [].
Proof.
  induction l as [|a l IH]; intros acc Hacc; simpl; [done|].
  apply IH. unfold unique_step. case_decide; simpl; [|done].
  intros E. apply app_eq_nil in E as [_ E]. done.
Qed.

Lemma unique_by_hash_subset l b : b ∈ unique_by_hash str_hash l → b ∈ l.
Proof.
  unfold unique_by_hash. intros Hb.
  apply unique_fold_subset in Hb as [Hb|Hb]; [|done]. by apply elem_of_nil in Hb.
Qed.

Lemma unique_by_hash_nonempty l : l ≠ [] → unique_by_hash str_hash l ≠ [].
Proof.
  unfold unique_by_hash. destruct l as [|a l]; [done|]. intros _. simpl.
  apply unique_fold_grows. unfold unique_step.
  rewrite decide_True by set_solver. done.
Qed.

(** C1.  On a board that stores no empty square, [get_successors] raises
    nothing, and for the list it returns: a jump is available to the side
    to move if and only if some returned board has fewer pieces than the
    parent; and in that case the list is not empty, every returned board has
    strictly fewer pieces than the parent, and no board that a single step
    makes (a move to a free square, which keeps the number of pieces) is in
    the list. *)
Theorem forced_capture_exclusive (self : SparseBoard) (s : Z) :
  no_zero self →
  ∃ succs, get_successors str_hash self s = Ok succs ∧
    (jump_available self s ↔
       ∃ b', b' ∈ succs ∧ (piece_count b' < piece_count self)%nat) ∧
    ((∃ b', b' ∈ succs ∧ (piece_count b' < piece_count self)%nat) →
       succs ≠ [] ∧
       (∀ b', b' ∈ succs → (piece_count b' < piece_count self)%nat) ∧
       (∀ x y move b',
          is_Some (sparse_board self !! (x, y)) →
          sparse_board self !! (x + move.1, y + move.2) = None →
          _perform_move self x y move = Ok b' → b' ∉ succs)).
Proof.
  intros Hnz. unfold get_successors.
  destruct (collect_successors_spec self s Hnz) as (ms & js & -> & Hms & Hjs & Hav).
  rewrite bind_Ok. cbv beta iota. eexists. split; [done|].
  rewrite Forall_forall in Hms, Hjs.
  assert ((∃ b', b' ∈ unique_by_hash str_hash
                   (if (0 <? length js)%nat then js else ms) ∧
                 (piece_count b' < piece_count self)%nat) → js ≠ []) as Hfewer.
  { intros (b' & Hin & Hlt) ->. simpl in Hin.
    apply unique_by_hash_subset in Hin. apply Hms in Hin. lia. }
  assert (js ≠ [] → (0 <? length js)%nat = true) as Hlen.
  { intros Hne. apply Nat.ltb_lt. destruct js; [done|simpl; lia]. }
  assert (js ≠ [] → ∀ b', b' ∈ unique_by_hash str_hash
                  (if (0 <? length js)%nat then js else ms) →
                (piece_count b' < piece_count self)%nat) as Hall.
  { intros Hne b' Hin. rewrite (Hlen Hne) in Hin.
    apply unique_by_hash_subset in Hin. by apply Hjs in Hin as [? _]. }
  assert (js ≠ [] → unique_by_hash str_hash
            (if (0 <? length js)%nat then js else ms) ≠ []) as Hsome.
  { intros Hne. rewrite (Hlen Hne). by apply unique_by_hash_nonempty. }
  split; [split|].
  - intros Hjump%Hav.
    destruct (unique_by_hash str_hash _) as [|b' l] eqn:E; [by apply Hsome in Hjump|].
    exists b'. split; [by left|]. apply (Hall Hjump). by left.
  - intros Hex%Hfewer. by apply Hav.
  - intros Hne%Hfewer. split; [by apply Hsome|]. split; [by apply Hall|].
    intros x y move b' [val Hval] Hfree Hmove Hin.
    apply (Hall Hne) in Hin.
    destruct (perform_move_free self x y move val Hval Hfree) as (nb & Hnb & Hcount).
    rewrite Hmove in Hnb. injection Hnb as <-. lia.
Qed.
End Dedup.

(** ** Promotion in the middle of a jump sequence *)

Lemma unique_by_hash_singleton str_hash b : unique_by_hash str_hash [b] = [b].
Proof.
  unfold unique_by_hash, unique_step. simpl.
  rewrite decide_True by set_solver. done.
Qed.

Lemma get_successors_collected str_hash self s ms b :
  collect_successors self s = Ok (ms, [b]) →
  get_successors str_hash self s = Ok [b].
Proof.
  intros E. unfold get_successors. rewrite E, bind_Ok. cbv beta iota.
  simpl. by rewrite unique_by_hash_singleton.
Qed.

Lemma no_zero_decide self :
  bool_decide (map_Forall (λ _ v, v ≠ 0) (sparse_board self)) = true → no_zero self.
Proof.
  intros Hall%bool_decide_eq_true k Hk. by apply Hall in Hk.
Qed.

Lemma perform_jump_landing self x y move nb val :
  sparse_board self !! (x, y) = Some val →
  _perform_jump self x y move = Ok nb →
  sparse_board nb !! (x + move.1 * 2, y + move.2 * 2)
    = Some (crowned self val (y + move.2 * 2)) ∧
  height nb = height self.
Proof.
  intros Hval. unfold _perform_jump, getitem, delitem, _copy. simpl.
  rewrite Hval. simpl.
  destruct (delete (x, y) (sparse_board self) !! (x + move.1, y + move.2)); [|done].
  simpl. intros [= <-]. simpl. by rewrite lookup_insert_eq.
Qed.

(** A man on a landing square from which the search goes on is not on its
    king row: the square two rows ahead is on the board. *)
Lemma forward_landing_not_king_row self player loc (move' : Z * Z) :
  player = 1 ∨ player = -1 →
  move' ∈ potential_moves false player →
  in_board self (loc.1 + move'.1 * 2, loc.2 + move'.2 * 2) = true →
  loc.2 ≠ king_row self player.
Proof.
  intros Hp Hmove Hin. unfold in_board in Hin.
  rewrite !andb_true_iff, !Z.leb_le, !Z.ltb_lt in Hin. simpl in Hin.
  unfold potential_moves in Hmove. rewrite app_nil_r in Hmove.
  unfold king_row.
  apply elem_of_cons in Hmove as [->|Hmove];
    [|apply elem_of_cons in Hmove as [->|Hmove]; [|by apply elem_of_nil in Hmove]];
    simpl in Hin; destruct Hp as [-> | ->]; simpl; lia.
Qed.

(** What [_follow_jump] returns for a man: boards at the end of sequences of
    forward jumps that stop where the man is crowned. *)
Lemma follow_jump_man_jumps player (fuel : nat) : ∀ self x y move l,
  player = 1 ∨ player = -1 →
  sparse_board self !! (x, y) = Some player →
  move ∈ potential_moves false player →
  _follow_jump fuel self x y move false player = Ok l →
  ∀ b', b' ∈ l →
        ∃ x' y', man_jumps player self x y move b' x' y' ∧
                 sparse_board b' !! (x', y') = Some (crowned self player y').
Proof.
  induction fuel as [|fuel IH]; intros self x y move l Hp Hman Hmove Hrun; [done|].
  rewrite follow_jump_S in Hrun.
  apply bind_Ok_inv in Hrun as (nb & Hnb & Hrun).
  apply bind_Ok_inv in Hrun as (succs & Hfold & [= <-]).
  destruct (perform_jump_landing self x y move nb player Hman Hnb) as [Hland Hh].
  set (P := λ b', ∃ x' y', man_jumps player self x y move b' x' y' ∧
                           sparse_board b' !! (x', y') = Some (crowned self player y')).
  assert (Forall P succs) as Hsuccs.
  { revert Hfold. apply foldlM_preserves; [|constructor].
    intros acc move' acc' Hacc Hmove' Hstep.
    destruct (occupation self _) as [mo|]; [|by injection Hstep as <-].
    destruct (jump_open mo _ player) eqn:Hopen; [|by injection Hstep as <-].
    apply bind_Ok_inv in Hstep as (more & Hmore & [= <-]).
    apply Forall_app. split; [done|].
    apply jump_open_landing in Hopen.
    assert (y + move.2 * 2 ≠ king_row self player) as Hrow.
    { by apply (forward_landing_not_king_row self player
                  (x + move.1 * 2, y + move.2 * 2) move'). }
    assert (crowned self player (y + move.2 * 2) = player) as Hstill.
    { unfold crowned. destruct (Z.eqb_spec (y + move.2 * 2) (king_row self player)); [done|].
      by case_match. }
    rewrite Hstill in Hland.
    apply Forall_forall. intros b' Hb'.
    destruct (IH nb (x + move.1 * 2) (y + move.2 * 2) move' more Hp Hland Hmove' Hmore b' Hb')
      as (x' & y' & Hpath & Hend).
    exists x', y'. split; [by eapply man_jumps_on|].
    rewrite Hend. unfold crowned, king_row. by rewrite Hh. }
  intros b' Hb'. case_bool_decide as Hlen.
  - apply nil_length_inv in Hlen as ->. simpl in Hb'.
    apply list_elem_of_singleton in Hb' as ->.
    exists (x + move.1 * 2), (y + move.2 * 2). split; [by apply man_jumps_stop|done].
  - rewrite Forall_forall in Hsuccs. by apply Hsuccs.
Qed.

(** C2, as the code has it.  [get_successors] computes the [is_king] flag of
    a piece once, from the value the piece has at the start of the turn, and
    [_follow_jump] hands the flag on unchanged, so a piece that starts its
    turn as a man jumps as a man to the end of the turn.  For a man of the
    side to move that has a jump along [move], the pass of the loop of
    [get_successors] for that direction raises nothing and adds to the jump
    successors the boards [l] that [_follow_jump] returns, at least one.
    Every board of [l] ends a sequence of jumps that all go along the two
    forward directions of a man and of which none but the last lands on the
    king row: a man crowned by a jump, the first or a later one, stops on the
    square where it is crowned, where the board holds it as a king. *)
Theorem crowned_man_stops_jumping (self : SparseBoard) (x y : Z) (move : Z * Z)
    (player : Z) :
  player = 1 ∨ player = -1 →
  no_zero self →
  sparse_board self !! (x, y) = Some player →
  move ∈ potential_moves (player * player =? 2) player →
  jump_here self player x y move →
  ∃ l, (∀ acc, try_move self player x y player acc move = Ok (acc.1, acc.2 ++ l)) ∧
       _follow_jump (size (sparse_board self)) self x y move
         (player * player =? 2) player = Ok l ∧
       l ≠ [] ∧
       ∀ b', b' ∈ l →
             ∃ x' y', man_jumps player self x y move b' x' y' ∧
                      sparse_board b' !! (x', y') = Some (crowned self player y') ∧
                      (y' = king_row self player →
                       sparse_board b' !! (x', y') = Some (player * 2)).
Proof.
  intros Hp Hnz Hman Hmove (mo & Hmo & Hopen).
  assert ((player * player =? 2) = false) as Hflag by (destruct Hp as [-> | ->]; done).
  rewrite Hflag in Hmove |- *.
  assert (sideways move) as Hside.
  { pose proof (potential_moves_sideways false player) as Hall.
    rewrite Forall_forall in Hall. by apply Hall. }
  assert (mo ≠ 0) as Hmo0.
  { apply andb_true_iff in Hopen as [Hopp%Z.ltb_lt _]. lia. }
  assert (jump_ready self x y move) as Hready.
  { split; [by eexists|]. split.
    - exists mo. by apply occupation_piece.
    - apply andb_true_iff in Hopen as [_ Hfree%bool_decide_eq_true].
      by apply occupation_free. }
  destruct (follow_jump_spec (size (sparse_board self)) self x y move false player
              Hnz Hready Hside) as (l & Hrun & Hne & _); [done|].
  exists l. split; [|split; [exact Hrun|split; [exact Hne|]]].
  - intros acc. unfold try_move. rewrite Hmo.
    destruct (Z.eqb_spec mo 0) as [|_]; [done|]. cbn [negb].
    rewrite Hopen, Hflag, Hrun. reflexivity.
  - intros b' Hb'.
    destruct (follow_jump_man_jumps player _ self x y move l Hp Hman Hmove Hrun b' Hb')
      as (x' & y' & Hpath & Hend).
    exists x', y'. split; [exact Hpath|]. split; [exact Hend|].
    intros ->. rewrite Hend. f_equal. unfold crowned.
    rewrite Z.eqb_refl. destruct Hp as [-> | ->]; done.
Qed.

(** The red man of [crowning_jump_board] jumps to its king row and is
    crowned; the turn ends there, although a king that starts its turn on
    that square must take the second black man, and although the same jump
    followed with a king's four directions does take it.  The red man of
    [late_crowning_board] is crowned by its second jump, and stops as
    well. *)
Lemma crowned_man_gets_no_king_jump :
  (∀ str_hash, get_successors str_hash crowning_jump_board 1 = Ok [crowning_jump_stop]) ∧
  (∀ str_hash, get_successors str_hash crowning_jump_stop 1 = Ok [crowning_jump_on]) ∧
  _follow_jump 3 crowning_jump_board 2 2 (1, -1) true 1 = Ok [crowning_jump_on] ∧
  crowning_jump_stop ≠ crowning_jump_on ∧
  (∀ str_hash, get_successors str_hash late_crowning_board 1 = Ok [late_crowning_stop]) ∧
  (∀ str_hash, get_successors str_hash late_crowning_stop 1 = Ok [late_crowning_on]) ∧
  _follow_jump 4 late_crowning_board 1 4 (1, -1) true 1 = Ok [late_crowning_on] ∧
  late_crowning_stop ≠ late_crowning_on.
Proof.
  split; [|split; [|split; [|split; [|split; [|split; [|split]]]]]].
  - intros str_hash. eapply get_successors_collected. vm_compute. reflexivity.
  - intros str_hash. eapply get_successors_collected. vm_compute. reflexivity.
  - by vm_compute.
  - intros E. apply (f_equal (λ b, sparse_board b !! (5, 1))) in E.
    vm_compute in E. discriminate.
  - intros str_hash. eapply get_successors_collected. vm_compute. reflexivity.
  - intros str_hash. eapply get_successors_collected. vm_compute. reflexivity.
  - by vm_compute.
  - intros E. apply (f_equal (λ b, sparse_board b !! (6, 1))) in E.
    vm_compute in E. discriminate.
Qed.

Lemma crowned_man_stops_jumping_witness :
  ∃ l, (∀ acc, try_move late_crowning_board 1 1 4 1 acc (1, -1) = Ok (acc.1, acc.2 ++ l)) ∧
       _follow_jump (size (sparse_board late_crowning_board)) late_crowning_board 1 4 (1, -1)
         (1 * 1 =? 2) 1 = Ok l ∧
       l ≠ [] ∧
       ∀ b', b' ∈ l →
             ∃ x' y', man_jumps 1 late_crowning_board 1 4 (1, -1) b' x' y' ∧
                      sparse_board b' !! (x', y')
                        = Some (crowned late_crowning_board 1 y') ∧
                      (y' = king_row late_crowning_board 1 →
                       sparse_board b' !! (x', y') = Some (1 * 2)).
Proof.
  apply (crowned_man_stops_jumping late_crowning_board 1 4 (1, -1) 1).
  - by left.
  - apply no_zero_decide. by vm_compute.
  - reflexivity.
  - apply list_elem_of_In. simpl. auto.
  - exists (-1). split; reflexivity.
Defined.

(** ** Recovering the best path *)

Section Recover.
Context (str_hash : string → Z).

Lemma size_list_to_set_le (l : list Z) :
  (size (list_to_set l : gset Z) ≤ length l)%nat.
Proof.
  induction l as [|a l IH].
  - rewrite list_to_set_nil, size_empty. simpl. lia.
  - rewrite list_to_set_cons, size_union_alt, size_singleton. simpl.
    assert (size (list_to_set l ∖ {[a]} : gset Z) ≤ size (list_to_set l : gset Z))%nat
      by (apply subseteq_size; set_solver).
    lia.
Qed.

Lemma strategy_hashes_size self :
  (size (strategy_hashes str_hash self) ≤ size (strategy self))%nat.
Proof.
  unfold strategy_hashes. rewrite <- length_map_to_list.
  etrans; [apply size_list_to_set_le|]. by rewrite length_fmap.
Qed.

Lemma strategy_hashes_lookup self k b v :
  strategy self !! k = Some (b, v) → __hash__ str_hash b ∈ strategy_hashes str_hash self.
Proof.
  intros Hk. unfold strategy_hashes. apply elem_of_list_to_set.
  apply list_elem_of_fmap. exists (k, (b, v)). split; [done|].
  by apply elem_of_map_to_list.
Qed.

(** The loop of [recover_best_path] ends before its fuel does; the path it
    returns extends the one it started from, with boards whose hashes are
    new and pairwise different. *)
Lemma recover_loop_spec self (fuel : nat) : ∀ board player path in_path,
  in_path ⊆ strategy_hashes str_hash self →
  (size (strategy_hashes str_hash self) < fuel + size in_path)%nat →
  ∃ more, recover_loop str_hash fuel self board player path in_path = Ok (path ++ more) ∧
          NoDup (__hash__ str_hash <$> more) ∧
          ∀ b, b ∈ more → __hash__ str_hash b ∉ in_path.
Proof.
  induction fuel as [|fuel IH]; intros board player path in_path Hsub Hfuel.
  - apply subseteq_size in Hsub. lia.
  - simpl. destruct (strategy self !! _) as [[board' v]|] eqn:Elook.
    2:{ exists []. rewrite app_nil_r. split; [done|]. split; [constructor|].
        intros b Hb. by apply elem_of_nil in Hb. }
    case_decide as Hseen.
    { exists []. rewrite app_nil_r. split; [done|]. split; [constructor|].
      intros b Hb. by apply elem_of_nil in Hb. }
    apply strategy_hashes_lookup in Elook.
    destruct (IH board' (player * -1) (path ++ [board'])
                (in_path ∪ {[__hash__ str_hash board']})) as (more & -> & Hnd & Hnew).
    + set_solver.
    + rewrite size_union by set_solver. rewrite size_singleton. lia.
    + exists (board' :: more). rewrite <- app_assoc. split; [done|]. split.
      * simpl. constructor; [|done]. intros Hin.
        apply list_elem_of_fmap in Hin as (b & Hb & Hin).
        apply Hnew in Hin. rewrite <- Hb in Hin. set_solver.
      * intros b [->|Hb]%elem_of_cons; [done|]. apply Hnew in Hb. set_solver.
Qed.

(** [recover_best_path] always returns: a path that starts with the root
    and goes on with boards of pairwise different hashes. *)
Lemma recover_best_path_returns self board player :
  ∃ more, recover_best_path str_hash self board player = Ok (board :: more) ∧
          NoDup (__hash__ str_hash <$> more).
Proof.
  unfold recover_best_path.
  destruct (recover_loop_spec self (S (size (strategy self))) board player [board] ∅)
    as (more & Hrun & Hnd & _).
  - set_solver.
  - pose proof (strategy_hashes_size self). rewrite size_empty. lia.
  - exists more. split; [exact Hrun|done].
Qed.

Lemma recover_loop_step self fuel board player path in_path board' v player' :
  strategy self !! (__hash__ str_hash board, player) = Some (board', v) →
  __hash__ str_hash board' ∉ in_path →
  player' = player * -1 →
  recover_loop str_hash (S fuel) self board player path in_path
    = recover_loop str_hash fuel self board' player' (path ++ [board'])
        (in_path ∪ {[__hash__ str_hash board']}).
Proof. intros Hlook Hnew ->. simpl. rewrite Hlook. by rewrite decide_False. Qed.

Lemma recover_loop_seen self fuel board player path in_path board' v :
  strategy self !! (__hash__ str_hash board, player) = Some (board', v) →
  __hash__ str_hash board' ∈ in_path →
  recover_loop str_hash (S fuel) self board player path in_path = Ok path.
Proof. intros Hlook Hseen. simpl. rewrite Hlook. by rewrite decide_True. Qed.

(** C3, at the four king shuffles.  The recovered path is A, B, C, D, A:
    the root is appended a second time, because [in_path] starts empty and
    never receives the hash of the root. *)
Theorem recover_best_path_repeats_root :
  NoDup [__hash__ str_hash shuffle_A; __hash__ str_hash shuffle_B;
         __hash__ str_hash shuffle_C; __hash__ str_hash shuffle_D] →
  recover_best_path str_hash (shuffle_state str_hash) shuffle_A 1
    = Ok [shuffle_A; shuffle_B; shuffle_C; shuffle_D; shuffle_A] ∧
  ¬ NoDup (__hash__ str_hash <$>
             [shuffle_A; shuffle_B; shuffle_C; shuffle_D; shuffle_A]).
Proof.
  intros Hnd.
  apply NoDup_cons in Hnd as [HA Hnd]. apply NoDup_cons in Hnd as [HB Hnd].
  apply NoDup_cons in Hnd as [HC _].
  repeat setoid_rewrite not_elem_of_cons in HA.
  repeat setoid_rewrite not_elem_of_cons in HB.
  repeat setoid_rewrite not_elem_of_cons in HC.
  destruct HA as (HAB & HAC & HAD & _), HB as (HBC & HBD & _), HC as (HCD & _).
  split.
  - assert (size (strategy (shuffle_state str_hash)) = 4%nat) as Hsize.
    { simpl. rewrite !map_size_insert_None, map_size_empty; [done|..];
        rewrite ?lookup_insert_ne, ?lookup_empty; congruence. }
    unfold recover_best_path. rewrite Hsize.
    rewrite (recover_loop_step _ _ _ _ _ _ shuffle_B (Finite 0) (-1));
      [|by unfold shuffle_state; simpl; rewrite lookup_insert_eq|set_solver|done].
    rewrite (recover_loop_step _ _ _ _ _ _ shuffle_C (Finite 0) 1);
      [|unfold shuffle_state; simpl;
        rewrite !lookup_insert_ne by congruence; by rewrite lookup_insert_eq|set_solver|done].
    rewrite (recover_loop_step _ _ _ _ _ _ shuffle_D (Finite 0) (-1));
      [|unfold shuffle_state; simpl;
        rewrite !lookup_insert_ne by congruence; by rewrite lookup_insert_eq|set_solver|done].
    rewrite (recover_loop_step _ _ _ _ _ _ shuffle_A (Finite 0) 1);
      [|unfold shuffle_state; simpl;
        rewrite !lookup_insert_ne by congruence; by rewrite lookup_insert_eq|set_solver|done].
    rewrite (recover_loop_seen _ _ _ _ _ _ shuffle_B (Finite 0));
      [done|by unfold shuffle_state; simpl; rewrite lookup_insert_eq|set_solver].
  - simpl. intros Hnd. apply NoDup_cons in Hnd as [Hin _]. set_solver.
Qed.
End Recover.

Lemma recover_best_path_repeats_root_witness :
  recover_best_path sample_str_hash (shuffle_state sample_str_hash) shuffle_A 1
    = Ok [shuffle_A; shuffle_B; shuffle_C; shuffle_D; shuffle_A] ∧
  ¬ NoDup (__hash__ sample_str_hash <$>
             [shuffle_A; shuffle_B; shuffle_C; shuffle_D; shuffle_A]).
Proof.
  apply (recover_best_path_repeats_root sample_str_hash).
  apply (bool_decide_unpack _). vm_compute. exact I.
Defined.

(** ** The statements at concrete boards *)

Lemma promotion_exactly_at_destination_witness :
  ∃ b' nv, _perform_jump man_before_crown 2 2 (-1, -1) = Ok b' ∧
           sparse_board b' !! (0, 0) = Some nv ∧ Z.abs nv = 2.
Proof.
  destruct (promotion_exactly_at_destination man_before_crown 2 2 (-1, -1) 1)
    as [_ Hjump]; [reflexivity|by left|].
  destruct Hjump as (b' & nv & Hrun & Hnv & _ & Hking & _).
  - vm_compute. eauto.
  - simpl. lia.
  - exists b', nv. split; [exact Hrun|]. split; [exact Hnv|].
    apply Hking. right. left. split; [lia|reflexivity].
Defined.

Lemma cached_score_probe_rule_witness :
  (get_cached_score one_entry_state default_board 5 2 1).1 = Some (Finite 1) ∧
  (get_cached_score one_entry_state default_board 5 4 1).1 = None.
Proof.
  split.
  - destruct (cached_score_probe_rule one_entry_state default_board 5 2 1 (Finite 1) 3 1)
      as (_ & _ & Hhit & _); [reflexivity|].
    apply Hhit; [reflexivity|reflexivity|lia].
  - destruct (cached_score_probe_rule one_entry_state default_board 5 4 1 (Finite 1) 3 1)
      as (_ & Hmiss & _); [reflexivity|].
    apply Hmiss. lia.
Defined.

Lemma no_move_means_loss_witness :
  get_terminal_value_and_succ sample_str_hash one_entry_state cornered_king (-1)
    = Ok (PosInf, []).
Proof.
  destruct (no_move_means_loss sample_str_hash one_entry_state cornered_king (-1))
    as [Hboth _]; [by right|].
  destruct Hboth as [_ Hnone].
  - exists (1, 1), 2. split; [reflexivity|lia].
  - exists (0, 0), (-2). split; [reflexivity|lia].
  - destruct Hnone as [Hrun Hval]; [by vm_compute|].
    rewrite Hrun, Hval. reflexivity.
Defined.

Lemma forced_capture_exclusive_witness :
  ∃ succs, get_successors sample_str_hash crowning_jump_board 1 = Ok succs ∧
           succs ≠ [] ∧
           ∀ b', b' ∈ succs → (piece_count b' < 3)%nat.
Proof.
  destruct (forced_capture_exclusive sample_str_hash crowning_jump_board 1)
    as (succs & Hrun & Hiff & Hall).
  - apply no_zero_decide. by vm_compute.
  - exists succs. split; [exact Hrun|].
    assert (jump_available crowning_jump_board 1) as Hjump.
    { exists 2, 2, 1, (1, -1), (-1). repeat split; try reflexivity.
      apply list_elem_of_In. simpl. auto. }
    apply Hiff in Hjump. destruct (Hall Hjump) as (Hne & Hfewer & _).
    split; [exact Hne|]. exact Hfewer.
Defined.

(** ** Reading a board *)

Lemma char_to_int_bad c : ¬ board_char c → char_to_int c = Raise KeyError.
Proof.
  unfold board_char, char_to_int. intros Hbad.
  repeat case_decide; try done; subst; exfalso; apply Hbad; auto.
Qed.

Lemma char_to_int_good c : board_char c → c ≠ "."%char → is_Ok (char_to_int c).
Proof.
  unfold board_char, char_to_int, is_Ok. intros [-> | [-> | [-> | [-> | ->]]]] Hdot;
    try done; simpl; eauto.
Qed.

(** A loop raises [e] when one of its passes always does and the others
    raise nothing else. *)
Lemma foldlM_raises {A B} (f : B → A → result B) (e : exn) l a :
  (∀ acc x, x ∈ l → f acc x = Raise e ∨ is_Ok (f acc x)) →
  a ∈ l → (∀ acc, f acc a = Raise e) →
  ∀ acc, foldlM f acc l = Raise e.
Proof.
  intros Hall Hin Ha. induction l as [|x l IH]; intros acc; [by apply elem_of_nil in Hin|].
  simpl. apply elem_of_cons in Hin as [<-|Hin].
  - by rewrite Ha.
  - destruct (Hall acc x) as [->|[acc' ->]]; [by left|done|].
    rewrite bind_Ok. apply IH; [|done]. intros acc0 x0 Hx0. apply Hall. by right.
Qed.

Lemma elem_of_enumerate_from {A} (l : list A) i a :
  a ∈ l → ∃ j, (j, a) ∈ enumerate_from i l.
Proof.
  revert i. induction l as [|b l IH]; intros i Hin; [by apply elem_of_nil in Hin|].
  apply elem_of_cons in Hin as [->|Hin]; simpl.
  - exists i. by left.
  - destruct (IH (i + 1) Hin) as [j Hj]. exists j. by right.
Qed.

Lemma read_char_cases y cells xc :
  read_char y cells xc = Raise KeyError ∨ is_Ok (read_char y cells xc).
Proof.
  destruct xc as [x c]. unfold read_char. case_decide; [|right; by eexists].
  destruct (decide (board_char c)) as [Hc|Hc].
  - right. destruct (char_to_int_good c Hc) as [v ->]; [done|]. by eexists.
  - left. by rewrite char_to_int_bad.
Qed.

Lemma read_line_cases y cells line :
  read_line y cells line = Raise KeyError ∨ is_Ok (read_line y cells line).
Proof.
  unfold read_line. generalize (enumerate (rstrip line)). intros l.
  revert cells. induction l as [|xc l IH]; intros cells; simpl; [right; by eexists|].
  destruct (read_char_cases y cells xc) as [E|[cells' E]].
  - left. by rewrite E.
  - rewrite E, bind_Ok. apply IH.
Qed.

Lemma read_line_bad y cells line c :
  c ∈ rstrip line → ¬ board_char c → read_line y cells line = Raise KeyError.
Proof.
  intros Hin Hbad. unfold read_line, enumerate.
  destruct (elem_of_enumerate_from (rstrip line) 0 c Hin) as [x Hx].
  eapply (foldlM_raises _ KeyError _ (x, c)); [|done|].
  - intros acc xc _. apply read_char_cases.
  - intros acc. unfold read_char. rewrite decide_True.
    + by rewrite char_to_int_bad.
    + intros ->. apply Hbad. by left.
Qed.

Lemma read_line_good y cells line :
  Forall board_char (rstrip line) → is_Ok (read_line y cells line).
Proof.
  unfold read_line, enumerate. generalize 0. generalize (rstrip line). clear line.
  intros l. revert cells. induction l as [|c l IH]; intros cells i Hall; simpl;
    [by eexists|].
  apply Forall_cons in Hall as [Hc Hall]. unfold read_char at 1.
  case_decide.
  - destruct (char_to_int_good c Hc) as [v ->]; [done|]. rewrite !bind_Ok. by apply IH.
  - rewrite bind_Ok. by apply IH.
Qed.

Lemma read_lines_bad lines : bad_lines lines → read_lines lines = Raise KeyError.
Proof.
  intros (line & c & Hline & Hc & Hbad). unfold read_lines, enumerate.
  destruct (elem_of_enumerate_from lines 0 line Hline) as [y Hy].
  rewrite (foldlM_raises _ KeyError _ (y, line)); [done| |done|].
  - intros acc [y' line'] _. apply read_line_cases.
  - intros acc. by eapply read_line_bad.
Qed.

Lemma read_lines_good lines : ¬ bad_lines lines → is_Ok (read_lines lines).
Proof.
  intros Hgood. unfold read_lines, enumerate.
  assert (Forall (λ line, Forall board_char (rstrip line)) lines) as Hall.
  { apply Forall_forall. intros line Hline. apply Forall_forall. intros c Hc.
    destruct (decide (board_char c)) as [|Hbad]; [done|].
    destruct Hgood. by exists line, c. }
  clear Hgood. revert Hall. generalize 0. generalize (sparse_board default_board).
  induction lines as [|line lines IH]; intros cells i Hall; simpl; [by eexists|].
  apply Forall_cons in Hall as [Hline Hall].
  destruct (read_line_good i cells line Hline) as [cells' E].
  rewrite E, bind_Ok.
  destruct (IH cells' (i + 1) Hall) as [b E']. 
  destruct (foldlM _ cells' _) as [cells''|e] eqn:E''; simpl in *; [by eexists|done].
Qed.

(** C9, as the code has it.  A text is refused exactly when one of its
    lines, with its trailing whitespace stripped by [rstrip], holds a
    character other than the five board characters; the failure is the
    [KeyError] of the lookup in [char_to_int].  Every other text is read into
    a board.  This holds for the lines of [str.splitlines] in
    [read_from_string] and for the lines of a text file in [read_from_file]. *)
Theorem read_rejects_bad_characters (text : string) :
  (bad_lines (splitlines (list_ascii_of_string text)) →
     read_from_string text = Raise KeyError) ∧
  (¬ bad_lines (splitlines (list_ascii_of_string text)) →
     is_Ok (read_from_string text)) ∧
  (bad_lines (readlines (list_ascii_of_string text)) →
     read_from_file text = Raise KeyError) ∧
  (¬ bad_lines (readlines (list_ascii_of_string text)) →
     is_Ok (read_from_file text)).
Proof.
  unfold read_from_string, read_from_file.
  repeat split; auto using read_lines_bad, read_lines_good.
Qed.

(** A trailing blank is neither a board character nor a line end, and the
    text is read all the same. *)
Lemma trailing_blank_is_read :
  ¬ board_char " "%char ∧ is_linebreak " "%char = false ∧
  read_from_string "r " = Ok (board_of_items [((0, 0), 1)]) ∧
  read_from_file "r " = Ok (board_of_items [((0, 0), 1)]).
Proof.
  split; [|split; [|split]].
  - unfold board_char. intros [H|[H|[H|[H|H]]]]; discriminate.
  - reflexivity.
  - by vm_compute.
  - by vm_compute.
Qed.

(** ** Printing a board and reading it back *)

Lemma list_ascii_of_string_app s t :
  list_ascii_of_string (s +:+ t) = list_ascii_of_string s ++ list_ascii_of_string t.
Proof. induction s as [|c s IH]; simpl; [done|]. by rewrite IH. Qed.

Lemma seqZ_of_nat_S m (n : nat) :
  seqZ m (Z.of_nat (S n)) = m :: seqZ (m + 1) (Z.of_nat n).
Proof.
  rewrite seqZ_cons by lia. f_equal. f_equal; lia.
Qed.

Lemma range_of_nat n : range n = seqZ 0 (Z.of_nat (Z.to_nat n)).
Proof.
  unfold range. destruct (Z.le_gt_cases 0 n).
  - by rewrite Z2Nat.id.
  - rewrite !seqZ_nil; [done|lia..].
Qed.

Lemma int_to_char_cell self x y :
  valid_board self →
  int_to_char (default 0 (sparse_board self !! (x, y))) = Some (cell_char self y x).
Proof.
  intros Hvalid. unfold cell_char.
  destruct (sparse_board self !! (x, y)) as [v|] eqn:E; [|done].
  apply Hvalid in E as [[-> | [-> | [-> | ->]]] _]; done.
Qed.

Lemma cell_char_board self x y : valid_board self → board_char (cell_char self y x).
Proof.
  intros Hvalid. unfold cell_char, board_char.
  destruct (sparse_board self !! (x, y)) as [v|] eqn:E; [|simpl; auto].
  apply Hvalid in E as [[-> | [-> | [-> | ->]]] _]; simpl; auto.
Qed.

Lemma board_char_plain c :
  board_char c → is_linebreak c = false ∧ is_whitespace c = false.
Proof. intros [-> | [-> | [-> | [-> | ->]]]]; done. Qed.

(** The inner loop of [__str__] appends one row. *)
Lemma str_row self y (Hvalid : valid_board self) xs : ∀ board,
  ∃ board', foldlM (λ board x,
               match int_to_char (default 0 (sparse_board self !! (x, y))) with
               | Some c => Ok (board +:+ String c "")
               | None => Raise TypeError
               end) board xs = Ok board' ∧
            list_ascii_of_string board'
              = list_ascii_of_string board ++ (cell_char self y <$> xs).
Proof.
  induction xs as [|x xs IH]; intros board; simpl.
  - exists board. by rewrite app_nil_r.
  - rewrite int_to_char_cell by done. rewrite bind_Ok.
    destruct (IH (board +:+ String (cell_char self y x) "")) as (board' & -> & E).
    exists board'. split; [done|].
    rewrite E, list_ascii_of_string_app. simpl. by rewrite <- app_assoc.
Qed.

Lemma str_rows self (Hvalid : valid_board self) ys : ∀ board,
  ∃ board', foldlM (λ board y,
               board ← foldlM (λ board x,
                   match int_to_char (default 0 (sparse_board self !! (x, y))) with
                   | Some c => Ok (board +:+ String c "")
                   | None => Raise TypeError
                   end) board (range (width self));
               Ok (board +:+ String LF "")) board ys = Ok board' ∧
            list_ascii_of_string board'
              = list_ascii_of_string board ++
                mjoin ((λ y, (cell_char self y <$> range (width self)) ++ [LF]) <$> ys).
Proof.
  induction ys as [|y ys IH]; intros board; simpl.
  - exists board. by rewrite app_nil_r.
  - destruct (str_row self y Hvalid (range (width self)) board) as (row & -> & Erow).
    rewrite !bind_Ok.
    destruct (IH (row +:+ String LF "")) as (board' & -> & E).
    exists board'. split; [done|].
    rewrite E, list_ascii_of_string_app, Erow. simpl. by rewrite <- !app_assoc.
Qed.

(** [__str__] on a valid board: the rows, each followed by a line feed. *)
Lemma str_spec self :
  valid_board self →
  ∃ text, __str__ self = Ok text ∧
          list_ascii_of_string text = mjoin ((λ row, row ++ [LF]) <$> board_rows self).
Proof.
  intros Hvalid. unfold __str__.
  destruct (str_rows self Hvalid (range (height self)) "") as (text & -> & E).
  exists text. split; [done|]. rewrite E. simpl. unfold board_rows.
  by rewrite <- list_fmap_compose.
Qed.

Lemma splitlines_row row rest :
  Forall (λ c, is_linebreak c = false) row →
  splitlines (row ++ LF :: rest) = row :: splitlines rest.
Proof.
  induction 1 as [|c row Hc _ IH]; simpl.
  - done.
  - by rewrite Hc, IH.
Qed.

Lemma splitlines_rows rows :
  Forall (Forall (λ c, is_linebreak c = false)) rows →
  splitlines (mjoin ((λ row, row ++ [LF]) <$> rows)) = rows.
Proof.
  induction 1 as [|row rows Hrow _ IH]; [done|].
  rewrite fmap_cons. cbn [mjoin list_join]. rewrite <- app_assoc. cbn [app].
  rewrite splitlines_row by done. f_equal. exact IH.
Qed.

Lemma rstrip_plain row :
  Forall (λ c, is_whitespace c = false) row → rstrip row = row.
Proof.
  induction 1 as [|c row Hc _ IH]; simpl; [done|].
  rewrite IH, Hc. by destruct row.
Qed.

Lemma board_rows_plain self :
  valid_board self →
  Forall (Forall (λ c, is_linebreak c = false ∧ is_whitespace c = false)) (board_rows self).
Proof.
  intros Hvalid. unfold board_rows. apply Forall_fmap, Forall_true. intros y.
  apply Forall_fmap, Forall_true. intros x. simpl.
  by apply board_char_plain, cell_char_board.
Qed.

Lemma in_board_bounds self k :
  in_board self k = true → 0 ≤ k.1 < width self ∧ 0 ≤ k.2 < height self.
Proof. unfold in_board. rewrite !andb_true_iff. lia. Qed.

Lemma char_to_int_cell self x y v :
  valid_board self → sparse_board self !! (x, y) = Some v →
  cell_char self y x ≠ "."%char ∧ char_to_int (cell_char self y x) = Ok v.
Proof.
  intros Hvalid E. unfold cell_char. rewrite E.
  apply Hvalid in E as [[-> | [-> | [-> | ->]]] _]; done.
Qed.

Lemma read_char_visit self x y cells :
  valid_board self → read_so_far self x y cells →
  ∃ cells', read_char y cells (x, cell_char self y x) = Ok cells' ∧
            read_so_far self (x + 1) y cells'.
Proof.
  intros Hvalid Hread. unfold read_char.
  destruct (sparse_board self !! (x, y)) as [v|] eqn:E.
  - destruct (char_to_int_cell self x y v Hvalid E) as [Hdot ->].
    rewrite decide_True by done. rewrite bind_Ok. eexists. split; [done|].
    intros k w. destruct (decide (k = (x, y))) as [->|Hk].
    + rewrite lookup_insert_eq, E. unfold visited. simpl.
      split; [intros [= ->]; split; [done|lia] | by intros [[= ->] _]].
    + rewrite lookup_insert_ne by done. rewrite (Hread k w). unfold visited.
      destruct k as [kx ky]. simpl.
      assert (ky = y ∧ kx = x → False) by (intros [-> ->]; done).
      split; intros [? ?]; (split; [done|lia]).
  - assert (cell_char self y x = "."%char) as -> by (unfold cell_char; by rewrite E).
    rewrite decide_False by (intros H; by apply H). eexists. split; [done|].
    intros k w. rewrite (Hread k w). unfold visited. destruct k as [kx ky]. simpl.
    split; intros [Hk ?]; (split; [done|]).
    + lia.
    + destruct (decide (ky = y ∧ kx = x)) as [[-> ->]|]; [congruence|lia].
Qed.

Lemma read_row self y (Hvalid : valid_board self) (n : nat) : ∀ x cells,
  read_so_far self x y cells →
  ∃ cells', foldlM (read_char y) cells
              (enumerate_from x (cell_char self y <$> seqZ x (Z.of_nat n))) = Ok cells' ∧
            read_so_far self (x + Z.of_nat n) y cells'.
Proof.
  induction n as [|n IH]; intros x cells Hread.
  - exists cells. simpl. split; [done|]. by rewrite Z.add_0_r.
  - rewrite seqZ_of_nat_S, fmap_cons. cbn [enumerate_from foldlM].
    destruct (read_char_visit self x y cells Hvalid Hread) as (cells1 & -> & Hread1).
    rewrite bind_Ok.
    destruct (IH (x + 1) cells1 Hread1) as (cells' & -> & Hread').
    exists cells'. split; [done|].
    by replace (x + Z.of_nat (S n)) with (x + 1 + Z.of_nat n) by lia.
Qed.

Lemma read_so_far_next_row self y cells :
  valid_board self →
  read_so_far self (0 + Z.of_nat (Z.to_nat (width self))) y cells →
  read_so_far self 0 (y + 1) cells.
Proof.
  intros Hvalid Hread k v. rewrite (Hread k v). unfold visited.
  split; intros [Hk Hvis]; (split; [done|]);
    apply Hvalid in Hk as [_ Hk%in_board_bounds]; lia.
Qed.

Lemma read_line_row self y cells :
  valid_board self → read_so_far self 0 y cells →
  ∃ cells', read_line y cells (cell_char self y <$> range (width self)) = Ok cells' ∧
            read_so_far self 0 (y + 1) cells'.
Proof.
  intros Hvalid Hread. unfold read_line, enumerate.
  rewrite rstrip_plain.
  2:{ apply Forall_fmap, Forall_true. intros x. simpl.
      by apply board_char_plain, cell_char_board. }
  rewrite range_of_nat.
  destruct (read_row self y Hvalid (Z.to_nat (width self)) 0 cells Hread)
    as (cells' & -> & Hread').
  exists cells'. split; [done|]. by apply read_so_far_next_row.
Qed.

Lemma read_rows self (Hvalid : valid_board self) (n : nat) : ∀ y cells,
  read_so_far self 0 y cells →
  ∃ cells', foldlM (λ cells '(y, line), read_line y cells line) cells
              (enumerate_from y
                 ((λ y, cell_char self y <$> range (width self)) <$> seqZ y (Z.of_nat n)))
              = Ok cells' ∧
            read_so_far self 0 (y + Z.of_nat n) cells'.
Proof.
  induction n as [|n IH]; intros y cells Hread.
  - exists cells. simpl. split; [done|]. by rewrite Z.add_0_r.
  - rewrite seqZ_of_nat_S, fmap_cons. cbn [enumerate_from foldlM].
    destruct (read_line_row self y cells Hvalid Hread) as (cells1 & -> & Hread1).
    rewrite bind_Ok.
    destruct (IH (y + 1) cells1 Hread1) as (cells' & -> & Hread').
    exists cells'. split; [done|].
    by replace (y + Z.of_nat (S n)) with (y + 1 + Z.of_nat n) by lia.
Qed.

(** Reading the rows of a valid board gives its mapping back. *)
Lemma read_board_rows self :
  valid_board self →
  read_lines (board_rows self) = Ok (with_cells default_board (sparse_board self)).
Proof.
  intros Hvalid. unfold read_lines, enumerate, board_rows.
  rewrite (range_of_nat (height self)).
  change (sparse_board default_board) with (∅ : gmap (Z * Z) Z).
  destruct (read_rows self Hvalid (Z.to_nat (height self)) 0 ∅) as (cells & -> & Hread).
  - intros k v. rewrite lookup_empty. unfold visited. split; [done|].
    intros [Hk%Hvalid Hvis]. destruct Hk as [_ Hk%in_board_bounds]. lia.
  - rewrite bind_Ok. do 2 f_equal. apply map_eq. intros k.
    apply option_eq. intros v. rewrite (Hread k v). unfold visited.
    split; [by intros [? _]|]. intros Hk. split; [done|].
    apply Hvalid in Hk as [_ Hk%in_board_bounds]. lia.
Qed.

(** Printing a valid board and reading the text gives a default board with
    the same mapping. *)
Lemma read_str_valid self :
  valid_board self →
  ∃ text, __str__ self = Ok text ∧
          read_from_string text = Ok (with_cells default_board (sparse_board self)).
Proof.
  intros Hvalid. destruct (str_spec self Hvalid) as (text & Hstr & Etext).
  exists text. split; [done|]. unfold read_from_string.
  rewrite Etext, splitlines_rows; [by apply read_board_rows|].
  eapply Forall_impl; [by apply board_rows_plain|]. intros row Hrow.
  eapply Forall_impl; [exact Hrow|]. by intros c [? _].
Qed.

Lemma foldlM_ext_in {A B} (f g : B → A → result B) l :
  (∀ acc a, a ∈ l → f acc a = g acc a) →
  ∀ acc, foldlM f acc l = foldlM g acc l.
Proof.
  induction l as [|a l IH]; intros Hext acc; simpl; [done|].
  rewrite (Hext acc a) by by left.
  destruct (g acc a) as [acc'|e]; simpl; [|done].
  apply IH. intros acc0 a0 Hin. apply Hext. by right.
Qed.

Lemma on_board_lookup self k v :
  sparse_board (on_board self) !! k = Some v ↔
  sparse_board self !! k = Some v ∧ in_board self k = true.
Proof. unfold on_board. simpl. by rewrite map_lookup_filter_Some. Qed.

Lemma on_board_lookup_in self k :
  in_board self k = true → sparse_board (on_board self) !! k = sparse_board self !! k.
Proof.
  intros Hin. apply option_eq. intros v. rewrite on_board_lookup. naive_solver.
Qed.

Lemma on_board_valid self :
  (∀ k v, sparse_board self !! k = Some v → is_piece v) → valid_board (on_board self).
Proof.
  intros Hpieces k v [Hk Hin]%on_board_lookup. split; [by eapply Hpieces|done].
Qed.

(** [__str__] reads the squares within the bounds of the board only. *)
Lemma str_on_board self : __str__ self = __str__ (on_board self).
Proof.
  unfold __str__. change (height (on_board self)) with (height self).
  change (width (on_board self)) with (width self).
  apply foldlM_ext_in. intros board y Hy. f_equal.
  apply foldlM_ext_in. intros row x Hx.
  rewrite on_board_lookup_in; [done|].
  unfold range in Hx, Hy. apply elem_of_seqZ in Hx, Hy.
  unfold in_board. simpl. rewrite !andb_true_iff, !Z.leb_le, !Z.ltb_lt. lia.
Qed.

(** C8, as the code has it.  For every board whose stored values are pieces,
    [__str__] returns a text and [read_from_string] reads that text into a
    board that holds the pieces of the squares within the board's own width
    and height, and nothing else.  So the mapping read back is the mapping of
    the board exactly when every occupied square lies within the board's own
    bounds, and the board read back is the board itself exactly when, in
    addition, the board has the default size. *)
Theorem render_read_round_trip (self : SparseBoard) :
  (∀ k v, sparse_board self !! k = Some v → is_piece v) →
  ∃ text b', __str__ self = Ok text ∧ read_from_string text = Ok b' ∧
             (∀ k v, sparse_board b' !! k = Some v ↔
                     sparse_board self !! k = Some v ∧ in_board self k = true) ∧
             (sparse_board b' = sparse_board self ↔
              ∀ k, is_Some (sparse_board self !! k) → in_board self k = true) ∧
             (b' = self ↔
              width self = 8 ∧ height self = 8 ∧
              ∀ k, is_Some (sparse_board self !! k) → in_board self k = true).
Proof.
  intros Hpieces.
  destruct (read_str_valid (on_board self) (on_board_valid self Hpieces))
    as (text & Hstr & Hread).
  rewrite <- str_on_board in Hstr.
  exists text, (with_cells default_board (sparse_board (on_board self))).
  split; [done|]. split; [done|].
  assert (sparse_board (on_board self) = sparse_board self ↔
          ∀ k, is_Some (sparse_board self !! k) → in_board self k = true) as Hsame.
  { split.
    - intros E k [v Hk]. rewrite <- E in Hk. by apply on_board_lookup in Hk as [_ ?].
    - intros Hin. apply map_eq. intros k. apply option_eq. intros v.
      rewrite on_board_lookup. split; [by intros [? _]|].
      intros Hk. split; [done|]. apply Hin. by exists v. }
  split; [apply on_board_lookup|]. split; [exact Hsame|].
  split.
  - intros E. split; [by rewrite <- E|]. split; [by rewrite <- E|].
    apply Hsame. by rewrite <- E at 2.
  - intros (Hw & Hh & Hin). apply Hsame in Hin.
    destruct self as [w h m]. simpl in *. subst. by rewrite Hin.
Qed.

(** A board of the default size comes back as it is; from
    [far_piece_board] the piece is lost. *)
Lemma render_read_round_trip_witness :
  (∃ text, __str__ crowning_jump_board = Ok text ∧
           read_from_string text = Ok crowning_jump_board) ∧
  (∃ text b', __str__ far_piece_board = Ok text ∧ read_from_string text = Ok b' ∧
              sparse_board b' ≠ sparse_board far_piece_board).
Proof.
  split.
  - destruct (render_read_round_trip crowning_jump_board)
      as (text & b' & Hstr & Hread & _ & _ & Hsame).
    + apply (bool_decide_unpack (map_Forall (λ _ v, is_piece v)
                                   (sparse_board crowning_jump_board))).
      by vm_compute.
    + exists text. split; [exact Hstr|]. rewrite Hread. f_equal. apply Hsame.
      split; [reflexivity|]. split; [reflexivity|].
      intros k [v Hk]. revert k v Hk.
      apply (bool_decide_unpack (map_Forall (λ k _, in_board crowning_jump_board k = true)
                                   (sparse_board crowning_jump_board))).
      by vm_compute.
  - destruct (render_read_round_trip far_piece_board)
      as (text & b' & Hstr & Hread & _ & Hsame & _).
    + apply (bool_decide_unpack (map_Forall (λ _ v, is_piece v)
                                   (sparse_board far_piece_board))).
      by vm_compute.
    + exists text, b'. split; [exact Hstr|]. split; [exact Hread|].
      intros E. destruct Hsame as [Hin _].
      specialize (Hin E (5, 5)). discriminate Hin. by exists 1.
Defined.

(** The claim at [far_piece_board]: the piece lies within the 8 by 8 bounds,
    the text printed is four rows of four dots, and the board read from it is
    empty. *)
Lemma small_board_drops_far_piece :
  (∀ k v, sparse_board far_piece_board !! k = Some v →
          is_piece v ∧ 0 ≤ k.1 < 8 ∧ 0 ≤ k.2 < 8) ∧
  ∃ text b', __str__ far_piece_board = Ok text ∧ read_from_string text = Ok b' ∧
             sparse_board b' = ∅ ∧
             sparse_board far_piece_board !! (5, 5) = Some 1 ∧
             sparse_board b' ≠ sparse_board far_piece_board.
Proof.
  split.
  - apply (bool_decide_unpack (map_Forall (λ k v, is_piece v ∧ 0 ≤ k.1 < 8 ∧ 0 ≤ k.2 < 8)
                                 (sparse_board far_piece_board))).
    by vm_compute.
  - exists (String.concat "" (replicate 4 ("...." +:+ String LF ""))), default_board.
    split; [by vm_compute|]. split; [by vm_compute|]. split; [done|].
    split; [done|]. intros E. apply (f_equal (λ m, m !! (5, 5))) in E.
    by vm_compute in E.
Qed.

(** ** The hash key *)

Lemma pretty_N_char_num d : num_char (pretty_N_char d).
Proof.
  right. destruct (decide (d < 10)%N) as [|Hge]; [by exists d|].
  exists 9%N. split; [done|].
  unfold pretty_N_char. repeat (case_match; try done); lia.
Qed.

Lemma pretty_N_go_num (x : N) : ∀ s,
  Forall num_char (list_ascii_of_string s) →
  Forall num_char (list_ascii_of_string (pretty_N_go x s)).
Proof.
  induction (N.lt_wf_0 x) as [x _ IH]; intros s Hs.
  destruct (decide (x = 0)%N) as [->|Hx]; [by rewrite pretty_N_go_0|].
  rewrite pretty_N_go_step by lia. apply IH.
  - apply N.div_lt; lia.
  - simpl. constructor; [apply pretty_N_char_num|done].
Qed.

Lemma pretty_N_num (x : N) : Forall num_char (list_ascii_of_string (pretty x)).
Proof.
  unfold pretty, pretty_N. case_decide.
  - simpl. constructor; [apply (pretty_N_char_num 0)|constructor].
  - apply pretty_N_go_num. constructor.
Qed.

Lemma pretty_Z_num (z : Z) : Forall num_char (list_ascii_of_string (pretty z)).
Proof.
  destruct z as [|p|p]; unfold pretty, pretty_Z.
  - simpl. constructor; [apply (pretty_N_char_num 0)|constructor].
  - apply (pretty_N_num (N.pos p)).
  - simpl. constructor; [by left|]. apply (pretty_N_num (N.pos p)).
Qed.

Lemma not_num_char c :
  c = ","%char ∨ c = " "%char ∨ c = "["%char ∨ c = "]"%char → ¬ num_char c.
Proof.
  intros Hc [->|(d & Hd & ->)]; [naive_solver|].
  unfold pretty_N_char in Hc. repeat case_match; naive_solver.
Qed.

(** Two integers followed by texts that stop them are equal when the whole
    texts are. *)
Lemma num_prefix_inj (u u' r r' : list ascii) :
  Forall num_char u → Forall num_char u' → stops r → stops r' →
  u ++ r = u' ++ r' → u = u' ∧ r = r'.
Proof.
  intros Hu. revert u'. induction Hu as [|c u Hc _ IH]; intros u' Hu' Hr Hr' E.
  - destruct Hu' as [|c' u' Hc' _]; [done|].
    simpl in E. subst r. by destruct Hr.
  - destruct Hu' as [|c' u' Hc' Hu']; simpl in E.
    + subst r'. by destruct Hr'.
    + injection E as -> E. destruct (IH u' Hu' Hr Hr' E) as [-> ->]. done.
Qed.

Lemma pretty_Z_prefix_inj (a b : Z) (r r' : list ascii) :
  stops r → stops r' →
  list_ascii_of_string (pretty a) ++ r = list_ascii_of_string (pretty b) ++ r' →
  a = b ∧ r = r'.
Proof.
  intros Hr Hr' E.
  apply num_prefix_inj in E as [E ->]; [|apply pretty_Z_num..|done|done].
  split; [|done]. apply (inj pretty).
  by rewrite <- (string_of_list_ascii_of_string (pretty a)), E,
    string_of_list_ascii_of_string.
Qed.

Lemma json_item_list (x y v : Z) :
  list_ascii_of_string (json_item ((x, y), v))
  = ["["; "["]%char ++ list_ascii_of_string (pretty x) ++ [","; " "]%char ++
    list_ascii_of_string (pretty y) ++ ["]"; ","; " "]%char ++
    list_ascii_of_string (pretty v) ++ ["]"]%char.
Proof. unfold json_item. by rewrite !list_ascii_of_string_app. Qed.

(** An item is read off the front of a text in one way only. *)
Lemma json_item_prefix_inj (i1 i2 : Z * Z * Z) (r1 r2 : list ascii) :
  list_ascii_of_string (json_item i1) ++ r1 = list_ascii_of_string (json_item i2) ++ r2 →
  i1 = i2 ∧ r1 = r2.
Proof.
  destruct i1 as [[x1 y1] v1], i2 as [[x2 y2] v2].
  rewrite !json_item_list, <- !app_assoc. simpl. intros [= E].
  apply pretty_Z_prefix_inj in E as [-> E];
    [|by apply not_num_char; auto..].
  simpl in E. injection E as E.
  apply pretty_Z_prefix_inj in E as [-> E];
    [|by apply not_num_char; auto..].
  simpl in E. injection E as E.
  apply pretty_Z_prefix_inj in E as [-> E];
    [|by apply not_num_char; auto..].
  by injection E as ->.
Qed.

Lemma json_item_head (i : Z * Z * Z) :
  ∃ t, list_ascii_of_string (json_item i) = "["%char :: t.
Proof. destruct i as [[x y] v]. rewrite json_item_list. simpl. eauto. Qed.

Lemma json_items_cons i items :
  json_items (i :: items)
  = list_ascii_of_string (json_item i) ++
    match items with [] => [] | _ => [","; " "]%char ++ json_items items end.
Proof. destruct items; simpl; [by rewrite app_nil_r|done]. Qed.

Lemma json_items_inj (l1 : list (Z * Z * Z)) : ∀ l2 r1 r2,
  json_items l1 ++ "]"%char :: r1 = json_items l2 ++ "]"%char :: r2 → l1 = l2.
Proof.
  induction l1 as [|i1 l1 IH]; intros l2 r1 r2 E.
  - destruct l2 as [|i2 l2]; [done|]. rewrite json_items_cons in E.
    destruct (json_item_head i2) as [t Ht]. rewrite Ht in E. discriminate.
  - destruct l2 as [|i2 l2].
    + rewrite json_items_cons in E.
      destruct (json_item_head i1) as [t Ht]. rewrite Ht in E. discriminate.
    + rewrite !json_items_cons, <- !app_assoc in E.
      apply json_item_prefix_inj in E as [-> E]. f_equal.
      destruct l1 as [|i1' l1], l2 as [|i2' l2]; [done|..];
        try (by simpl in E; discriminate).
      cbn [app] in E. injection E as E. by eapply IH.
Qed.

Lemma json_dumps_list items :
  list_ascii_of_string (json_dumps items) = "["%char :: json_items items ++ ["]"%char].
Proof.
  unfold json_dumps. rewrite !list_ascii_of_string_app. simpl. do 2 f_equal.
  induction items as [|i items IH]; [done|].
  rewrite fmap_cons, json_items_cons. destruct items as [|i' items].
  - simpl. by rewrite app_nil_r.
  - change (String.concat ", " (json_item i :: (json_item <$> (i' :: items))))
      with (json_item i +:+ ", " +:+ String.concat ", " (json_item <$> (i' :: items))).
    rewrite !list_ascii_of_string_app. by rewrite IH.
Qed.

Lemma json_dumps_inj l1 l2 : json_dumps l1 = json_dumps l2 → l1 = l2.
Proof.
  intros E. apply (f_equal list_ascii_of_string) in E.
  rewrite !json_dumps_list in E. injection E as E. by eapply json_items_inj.
Qed.

(** The hash key tells positions apart. *)
Lemma hash_key_inj b1 b2 :
  hash_key b1 = hash_key b2 → sparse_board b1 = sparse_board b2.
Proof.
  unfold hash_key, sorted. intros E%json_dumps_inj.
  apply map_to_list_inj.
  rewrite <- (merge_sort_Permutation tuple_le (map_to_list (sparse_board b1))).
  rewrite E. apply merge_sort_Permutation.
Qed.

Lemma toggle_rank_changes v : is_piece v → toggle_rank v ≠ v ∧ is_piece (toggle_rank v).
Proof. unfold is_piece. intros [-> | [-> | [-> | ->]]]; vm_compute; split; auto; discriminate. Qed.

(** C6, as the code has it.  The hash of a board is the interpreter's string
    hash of its hash key, the JSON text of the sorted items.  Boards with the
    same mapping have the same key and the same hash.  The key tells
    positions apart: boards with different mappings have different keys, in
    particular a board and the board with the rank of one piece toggled.  So
    two different positions have the same hash only when the string hash
    gives two different texts the same value, and never when the string hash
    is injective. *)
Theorem hash_key_discriminates (str_hash : string → Z) (b1 b2 : SparseBoard) :
  __hash__ str_hash b1 = str_hash (hash_key b1) ∧
  (sparse_board b1 = sparse_board b2 →
     hash_key b1 = hash_key b2 ∧ __hash__ str_hash b1 = __hash__ str_hash b2) ∧
  (sparse_board b1 ≠ sparse_board b2 → hash_key b1 ≠ hash_key b2) ∧
  (∀ k v, sparse_board b1 !! k = Some v → is_piece v →
          sparse_board b2 = <[k := toggle_rank v]> (sparse_board b1) →
          hash_key b1 ≠ hash_key b2) ∧
  (sparse_board b1 ≠ sparse_board b2 →
     __hash__ str_hash b1 = __hash__ str_hash b2 →
     ∃ s1 s2, s1 ≠ s2 ∧ str_hash s1 = str_hash s2) ∧
  ((∀ s1 s2, str_hash s1 = str_hash s2 → s1 = s2) →
     __hash__ str_hash b1 = __hash__ str_hash b2 → sparse_board b1 = sparse_board b2).
Proof.
  split; [done|]. split; [|split; [|split; [|split]]].
  - intros E. unfold __hash__, hash_key. by rewrite E.
  - intros Hne E. by apply Hne, hash_key_inj.
  - intros k v Hk Hv E2 E%hash_key_inj.
    rewrite E2 in E. apply (f_equal (λ m, m !! k)) in E.
    rewrite Hk, lookup_insert_eq in E. injection E as E.
    by destruct (toggle_rank_changes v Hv) as [Hne _].
  - intros Hne E. exists (hash_key b1), (hash_key b2). split; [|done].
    intros E'. by apply Hne, hash_key_inj.
  - intros Hinj E. by apply hash_key_inj, Hinj.
Qed.

(** ** More positions than hash values *)

(** A search below [m] for an index with a decidable property finds one or
    excludes all. *)
Lemma bounded_search (P : Z → Prop) `{∀ i, Decision (P i)} (m : Z) :
  0 ≤ m → (∃ i, 0 ≤ i < m ∧ P i) ∨ (∀ i, 0 ≤ i < m → ¬ P i).
Proof.
  revert m. apply natlike_ind.
  - right. intros i Hi. lia.
  - intros m Hm [(i & Hi & HP)|Hnone].
    + left. exists i. split; [lia|done].
    + destruct (decide (P m)) as [HP|HP].
      * left. exists m. split; [lia|done].
      * right. intros i Hi. destruct (decide (i = m)) as [->|]; [done|].
        apply Hnone. lia.
Qed.

(** The pigeonhole principle on integers: [n + 1] indices cannot have
    pairwise different values among [n] values. *)
Lemma pigeonhole (n : Z) :
  0 ≤ n → ∀ f : Z → Z, (∀ i, 0 ≤ i ≤ n → 0 ≤ f i < n) →
  ∃ i j, 0 ≤ i < j ∧ j ≤ n ∧ f i = f j.
Proof.
  revert n. apply (natlike_ind (λ n, ∀ f : Z → Z, (∀ i, 0 ≤ i ≤ n → 0 ≤ f i < n) →
                                     ∃ i j, 0 ≤ i < j ∧ j ≤ n ∧ f i = f j)).
  - intros f Hf. specialize (Hf 0). lia.
  - intros n Hn IH f Hf.
    destruct (bounded_search (λ i, f i = f (Z.succ n)) (Z.succ n)) as [(i & Hi & E)|Hnew];
      [lia| |].
    + exists i, (Z.succ n). split; [lia|]. split; [lia|done].
    + destruct (IH (λ i, if f i <? f (Z.succ n) then f i else f i - 1))
        as (i & j & Hij & Hjn & E).
      * intros i Hi. pose proof (Hf i). pose proof (Hf (Z.succ n)).
        pose proof (Hnew i). cbv beta. destruct (Z.ltb_spec (f i) (f (Z.succ n))); lia.
      * exists i, j. split; [lia|]. split; [lia|].
        pose proof (Hnew i). pose proof (Hnew j). cbv beta in E.
        destruct (Z.ltb_spec (f i) (f (Z.succ n))),
                 (Z.ltb_spec (f j) (f (Z.succ n))); lia.
Qed.

Lemma all_kings_cells :
  map_Forall (λ k v, v = 2 ∧ 0 ≤ k.1 < 8 ∧ 0 ≤ k.2 < 8) all_kings.
Proof. apply (bool_decide_unpack _). by vm_compute. Qed.

Lemma all_kings_lookup (k : Z) :
  0 ≤ k < 64 → all_kings !! (k `mod` 8, k `div` 8) = Some 2.
Proof.
  intros Hk.
  assert (Forall (λ k, all_kings !! (k `mod` 8, k `div` 8) = Some 2) (seqZ 0 64)) as Hall
    by (apply (bool_decide_unpack _); by vm_compute).
  rewrite Forall_forall in Hall. apply Hall. apply elem_of_seqZ. lia.
Qed.

Lemma bits_board_cells (i : Z) :
  sparse_board (bits_board i)
  = filter (λ kv, Z.testbit i (kv.1.1 + 8 * kv.1.2) = true) all_kings.
Proof. reflexivity. Qed.

Lemma bits_board_lookup (i k : Z) :
  0 ≤ k < 64 →
  sparse_board (bits_board i) !! (k `mod` 8, k `div` 8)
  = if Z.testbit i k then Some 2 else None.
Proof.
  intros Hk. rewrite bits_board_cells.
  assert (k `mod` 8 + 8 * (k `div` 8) = k) as Ek
    by (pose proof (Z.div_mod k 8); lia).
  destruct (Z.testbit i k) eqn:Ebit.
  - apply map_lookup_filter_Some. split; [by apply all_kings_lookup|].
    cbn [fst snd]. by rewrite Ek.
  - apply map_lookup_filter_None. right. intros v _. cbn [fst snd].
    rewrite Ek. congruence.
Qed.

Lemma bits_board_inj (i j : Z) :
  0 ≤ i < 2 ^ 64 → 0 ≤ j < 2 ^ 64 →
  sparse_board (bits_board i) = sparse_board (bits_board j) → i = j.
Proof.
  intros Hi Hj E. apply Z.bits_inj'. intros k Hk.
  destruct (Z.lt_ge_cases k 64) as [Hlt|Hge].
  - pose proof (bits_board_lookup i k) as Ei. pose proof (bits_board_lookup j k) as Ej.
    rewrite E in Ei. rewrite Ei in Ej by lia.
    specialize (Ej ltac:(lia)).
    destruct (Z.testbit i k), (Z.testbit j k); congruence.
  - assert (∀ a, 0 ≤ a < 2 ^ 64 → Z.testbit a k = false) as Hhigh.
    { intros a Ha. destruct (decide (a = 0)) as [->|]; [apply Z.bits_0|].
      apply Z.bits_above_log2; [lia|].
      assert (Z.log2 a < 64) by (apply Z.log2_lt_pow2; lia). lia. }
    by rewrite !Hhigh.
Qed.

Lemma bits_board_valid (i : Z) : valid_board (bits_board i).
Proof.
  intros k v Hk. rewrite bits_board_cells in Hk.
  apply map_lookup_filter_Some in Hk as [Hk _].
  apply all_kings_cells in Hk as (-> & Hx & Hy). split; [right; by left|].
  unfold in_board. change (width (bits_board i)) with 8.
  change (height (bits_board i)) with 8.
  rewrite !andb_true_iff, !Z.leb_le, !Z.ltb_lt. lia.
Qed.

Lemma numbered_board_valid (i : Z) :
  valid_board (numbered_board i) ∧
  width (numbered_board i) = 8 ∧ height (numbered_board i) = 8.
Proof.
  unfold numbered_board. case_match.
  - split; [apply bits_board_valid|done].
  - split; [|done]. intros k v Hk.
    assert (map_Forall (λ k v, is_piece v ∧ in_board (board_of_items [((0, 0), -2)]) k = true)
              (sparse_board (board_of_items [((0, 0), -2)]))) as Hall
      by (apply (bool_decide_unpack _); by vm_compute).
    by apply Hall.
Qed.

Lemma numbered_board_inj (i j : Z) :
  0 ≤ i < j → j ≤ 2 ^ 64 →
  sparse_board (numbered_board i) ≠ sparse_board (numbered_board j).
Proof.
  intros Hij Hj E. unfold numbered_board in E.
  destruct (Z.ltb_spec i (2 ^ 64)); [|lia].
  destruct (Z.ltb_spec j (2 ^ 64)).
  - apply bits_board_inj in E; lia.
  - apply (f_equal (λ m, m !! (0 `mod` 8, 0 `div` 8))) in E.
    rewrite bits_board_lookup in E by lia.
    destruct (Z.testbit i 0); vm_compute in E; discriminate.
Qed.

(** C6, as stated, fails for every string hash with 64-bit values (the
    width of the interpreter's hash): some two valid positions of the default
    board with different mappings have the same hash. *)
Lemma no_injective_64_bit_hash :
  ¬ ∃ str_hash : string → Z,
      (∀ s, - 2 ^ 63 ≤ str_hash s < 2 ^ 63) ∧
      (∀ b1 b2, valid_board b1 → valid_board b2 →
                width b1 = 8 → height b1 = 8 → width b2 = 8 → height b2 = 8 →
                __hash__ str_hash b1 = __hash__ str_hash b2 →
                sparse_board b1 = sparse_board b2).
Proof.
  intros (str_hash & Hrange & Hinj).
  destruct (pigeonhole (2 ^ 64) ltac:(lia)
              (λ i, __hash__ str_hash (numbered_board i) + 2 ^ 63))
    as (i & j & Hij & Hjn & E).
  - intros i _. unfold __hash__. pose proof (Hrange (hash_key (numbered_board i))). lia.
  - cbv beta in E. apply (numbered_board_inj i j); [lia..|].
    destruct (numbered_board_valid i) as (? & ? & ?).
    destruct (numbered_board_valid j) as (? & ? & ?).
    apply Hinj; [done..|lia].
Qed.

(** ** The stack: table and list *)

Section StackFacts.
Context {K : Type} `{Countable K}.
Implicit Types (self : Stack K) (item : K).

Lemma occurrences_nonneg item (l : list K) : 0 ≤ occurrences item l.
Proof. unfold occurrences. lia. Qed.

Lemma occurrences_app item (l1 l2 : list K) :
  occurrences item (l1 ++ l2) = occurrences item l1 + occurrences item l2.
Proof. unfold occurrences. rewrite filter_app, length_app. lia. Qed.

Lemma occurrences_singleton item a :
  occurrences item [a] = if decide (a = item) then 1 else 0.
Proof.
  unfold occurrences. rewrite filter_cons, filter_nil. by case_decide.
Qed.

Lemma occurrences_pos_elem item (l : list K) : occurrences item l ≠ 0 ↔ item ∈ l.
Proof.
  unfold occurrences. induction l as [|a l IH]; [by rewrite elem_of_nil|].
  rewrite filter_cons, elem_of_cons. case_decide as Ha; simpl.
  - split; [auto|lia].
  - rewrite IH. split; [auto|]. intros [->|?]; [done|auto].
Qed.

Lemma list_pop_snoc (l : list K) item : list_pop (l ++ [item]) = Some (item, l).
Proof.
  induction l as [|a l IH]; [done|].
  change ((a :: l) ++ [item]) with (a :: (l ++ [item])).
  simpl. rewrite IH. by destruct (l ++ [item]) eqn:E; [destruct l|].
Qed.

Lemma list_pop_Some (l : list K) item rest :
  list_pop l = Some (item, rest) → l = rest ++ [item].
Proof.
  revert rest. induction l as [|a l IH]; intros rest E; [done|].
  simpl in E. destruct l as [|b l]; [by injection E as <- <-|].
  destruct (list_pop (b :: l)) as [[item' rest']|]; [|done].
  injection E as <- <-. by rewrite (IH rest' eq_refl).
Qed.

Lemma list_pop_None (l : list K) : list_pop l = None → l = [].
Proof.
  induction l as [|a l IH]; [done|]. simpl. destruct l as [|b l]; [done|].
  destruct (list_pop (b :: l)) as [[? ?]|]; [done|]. intros _. by specialize (IH eq_refl).
Qed.

Lemma counted_init : counted (Stack_init (K:=K)).
Proof. intros item. unfold Stack_init. simpl. by rewrite lookup_empty. Qed.

Lemma counted_push self item : counted self → counted (push self item).
Proof.
  intros Hc a. pose proof (Hc item) as Hitem. pose proof (Hc a) as Ha.
  pose proof (occurrences_nonneg a (stack self)).
  assert (stack (push self item) = stack self ++ [item]) as ->
    by (unfold push; by destruct (lookup self !! item)).
  rewrite occurrences_app, occurrences_singleton.
  destruct (decide (item = a)) as [->|Hne].
  - rewrite decide_False by lia.
    unfold push. destruct (lookup self !! a) as [n|] eqn:E; simpl;
      rewrite lookup_insert_eq; case_decide; simplify_eq; f_equal; lia.
  - replace (lookup (push self item) !! a) with (lookup self !! a).
    2:{ unfold push. destruct (lookup self !! item); simpl;
          by rewrite lookup_insert_ne. }
    rewrite Ha. repeat case_decide; try done; try lia; f_equal; lia.
Qed.

Lemma counted_pop self item self' :
  counted self → pop self = inr (item, self') →
  counted self' ∧ stack self = stack self' ++ [item].
Proof.
  intros Hc. unfold pop.
  destruct (list_pop (stack self)) as [[item' rest]|] eqn:Epop; [|done].
  apply list_pop_Some in Epop.
  destruct (lookup self !! item') as [n|] eqn:En; [|done].
  pose proof (Hc item') as Hn. rewrite En in Hn.
  assert (n = occurrences item' (stack self) ∧ n ≠ 0) as [Hn' Hn0]
    by (case_decide; simplify_eq; done).
  intros Hres.
  assert (item' = item ∧ stack self' = rest ∧
          lookup self' = if n - 1 =? 0 then delete item' (<[item' := n - 1]> (lookup self))
                         else <[item' := n - 1]> (lookup self)) as (-> & Hst & Hlk).
  { destruct (n - 1 =? 0); by injection Hres as <- <-. }
  split; [|by rewrite Hst].
  intros a. rewrite Hst, Hlk. pose proof (Hc a) as Ha.
  pose proof (occurrences_nonneg a rest).
  rewrite Epop, occurrences_app, occurrences_singleton in Ha, Hn'.
  rewrite (decide_True (P := item = item)) in Hn' by done.
  destruct (decide (item = a)) as [->|Hne].
  - destruct (Z.eqb_spec (n - 1) 0) as [E0|E0].
    + rewrite lookup_delete_eq. by rewrite decide_True by lia.
    + rewrite lookup_insert_eq. rewrite decide_False by lia. f_equal. lia.
  - replace ((if n - 1 =? 0 then delete item (<[item := n - 1]> (lookup self))
              else <[item := n - 1]> (lookup self)) !! a) with (lookup self !! a).
    2:{ destruct (n - 1 =? 0); by rewrite ?lookup_delete_ne, lookup_insert_ne by done. }
    rewrite Ha. repeat case_decide; try done; try lia; f_equal; lia.
Qed.

(** X1.  On a stack whose table counts its list, [item in stack] holds when
    the item is on the list and only then, and [push] and [pop] keep the
    table counting the list. *)
Theorem stack_contains_iff_on_list self item :
  counted self →
  (contains self item = true ↔ item ∈ stack self) ∧
  counted (push self item) ∧
  (∀ item' self', pop self = inr (item', self') → counted self').
Proof.
  intros Hc. split; [|split].
  - unfold contains. rewrite bool_decide_eq_true, (Hc item).
    rewrite <- occurrences_pos_elem. case_decide as Hocc.
    + split; [by intros [? ?]|done].
    + split; [done|by eexists].
  - by apply counted_push.
  - intros item' self' Hpop. by destruct (counted_pop self item' self' Hc Hpop).
Qed.

(** X2.  [pop] after [push] returns the pushed item and the stack as it was
    before, list and table. *)
Theorem stack_pop_push self item :
  counted self → pop (push self item) = inr (item, self).
Proof.
  intros Hc. pose proof (Hc item) as Hitem.
  pose proof (occurrences_nonneg item (stack self)).
  destruct self as [l m]. unfold push. simpl in *.
  destruct (m !! item) as [n|] eqn:E; unfold pop; simpl;
    rewrite list_pop_snoc, lookup_insert_eq.
  - case_decide; simplify_eq.
    replace (occurrences item l + 1 - 1) with (occurrences item l) by lia.
    destruct (Z.eqb_spec (occurrences item l) 0); [done|].
    do 3 f_equal. rewrite insert_insert_eq. by apply insert_id.
  - change (1 - 1 =? 0) with true. cbv iota. do 3 f_equal.
    rewrite insert_insert_eq, delete_insert_eq. by apply delete_id.
Qed.

(** X3.  [pop] raises [IndexError] on a stack with no item, and on a stack
    whose table counts its list it raises nothing else: from a list that is
    not empty it returns the item pushed last and leaves the items before
    it. *)
Theorem stack_pop_cases self :
  counted self →
  (stack self = [] → pop self = inl IndexError) ∧
  (∀ l item, stack self = l ++ [item] →
     ∃ self', pop self = inr (item, self') ∧ stack self' = l).
Proof.
  intros Hc. split.
  - intros E. unfold pop. by rewrite E.
  - intros l item E. unfold pop. rewrite E, list_pop_snoc.
    pose proof (Hc item) as Hitem. rewrite E, occurrences_app, occurrences_singleton in Hitem.
    rewrite (decide_True (P := item = item)) in Hitem by done.
    pose proof (occurrences_nonneg item l).
    rewrite decide_False in Hitem by lia. rewrite Hitem.
    destruct (_ =? 0); eexists; split; done.
Qed.
End StackFacts.

Lemma stack_contains_iff_on_list_witness :
  contains (push (push (Stack_init (K:=Z)) 3) 5) 3 = true ∧
  contains (push (push (Stack_init (K:=Z)) 3) 5) 4 = false.
Proof.
  destruct (stack_contains_iff_on_list (push (push (Stack_init (K:=Z)) 3) 5) 3)
    as (Hin & _); [apply counted_push, counted_push, counted_init|].
  split.
  - apply Hin. vm_compute. apply list_elem_of_In. simpl. auto.
  - reflexivity.
Defined.

Lemma stack_pop_push_witness :
  pop (push (push (Stack_init (K:=Z)) 3) 5) = inr (5, push Stack_init 3).
Proof.
  apply (stack_pop_push (push (Stack_init (K:=Z)) 3) 5).
  apply counted_push, counted_init.
Defined.

Lemma stack_pop_cases_witness :
  pop (Stack_init (K:=Z)) = inl IndexError.
Proof.
  destruct (stack_pop_cases (Stack_init (K:=Z))) as [Hempty _]; [apply counted_init|].
  by apply Hempty.
Defined.

(** ** The board from the other side *)

Lemma invert_fold_lookup self (l : list (Z * Z * Z)) : ∀ cells x y,
  NoDup l.*1 →
  foldl (invert_step self) cells l !! (x, y)
  = match list_to_map (M := gmap (Z * Z) Z) l !! (x, height self - y - 1) with
    | Some v => Some (- v)
    | None => cells !! (x, y)
    end.
Proof.
  induction l as [|[[x0 y0] v0] l IH]; intros cells x y Hnd; simpl.
  - change (list_to_map (M := gmap (Z * Z) Z) []) with (∅ : gmap (Z * Z) Z).
    by rewrite lookup_empty.
  - apply NoDup_cons in Hnd as [Hnotin Hnd]. rewrite IH by done.
    destruct (decide ((x0, y0) = (x, height self - y - 1))) as [[= -> ->]|Hne].
    + rewrite lookup_insert_eq.
      rewrite (not_elem_of_list_to_map_1 l) by done.
      replace (height self - (height self - y - 1) - 1) with y by lia.
      by rewrite lookup_insert_eq.
    + rewrite (lookup_insert_ne (list_to_map l)) by done.
      destruct (list_to_map l !! (x, height self - y - 1)); [done|].
      rewrite lookup_insert_ne; [done|]. intros [= -> Hy]. apply Hne. f_equal. lia.
Qed.

(** The square [(x, y)] of the inverted board holds the piece of the other
    colour that stood on [(x, height - y - 1)]. *)
Lemma invert_lookup self x y :
  sparse_board (invert self) !! (x, y)
  = Z.opp <$> sparse_board self !! (x, height self - y - 1).
Proof.
  unfold invert. simpl. rewrite invert_fold_lookup by apply NoDup_fst_map_to_list.
  rewrite list_to_map_to_list, lookup_empty.
  by destruct (sparse_board self !! _).
Qed.

Lemma invert_lookup_Some self x y v :
  sparse_board self !! (x, y) = Some v →
  sparse_board (invert self) !! (x, height self - y - 1) = Some (- v).
Proof.
  intros Hv. rewrite invert_lookup.
  replace (height self - (height self - y - 1) - 1) with y by lia. by rewrite Hv.
Qed.

Global Instance flip_row_inj h : Inj (=) (=) (flip_row h).
Proof. intros [x1 y1] [x2 y2] [=]. f_equal; lia. Qed.

Lemma invert_cells self :
  sparse_board (invert self) = kmap (flip_row (height self)) (Z.opp <$> sparse_board self).
Proof.
  apply map_eq. intros [x y]. rewrite invert_lookup.
  replace (x, y) with (flip_row (height self) (x, height self - y - 1))
    by (unfold flip_row; simpl; f_equal; lia).
  rewrite lookup_kmap, lookup_fmap; [done|apply _].
Qed.

(** The values of the inverted board are the values of the board, negated. *)
Lemma values_invert self : values (invert self) ≡ₚ Z.opp <$> values self.
Proof.
  unfold values. rewrite invert_cells.
  rewrite map_to_list_kmap; [|apply _]. rewrite map_to_list_fmap.
  generalize (map_to_list (sparse_board self)). intros l.
  induction l as [|[k v] l IH]; [done|].
  rewrite !fmap_cons. simpl. by rewrite IH.
Qed.

(** X4.  Inverting a board twice gives the board back; the inverted board
    has the same size and as many pieces. *)
Theorem invert_involutive (self : SparseBoard) :
  invert (invert self) = self ∧
  width (invert self) = width self ∧ height (invert self) = height self ∧
  piece_count (invert self) = piece_count self.
Proof.
  assert (sparse_board (invert (invert self)) = sparse_board self) as Hcells.
  { apply map_eq. intros [x y]. rewrite !invert_lookup.
    change (height (invert self)) with (height self).
    replace (height self - (height self - y - 1) - 1) with y by lia.
    destruct (sparse_board self !! (x, y)); simpl; [f_equal; lia|done]. }
  split; [|split; [done|split; [done|]]].
  - destruct self as [w h m]. unfold invert in *. simpl in *. by rewrite Hcells.
  - rewrite <- !length_values, values_invert. by rewrite length_fmap.
Qed.

Lemma has_red_invert self : has_red (invert self) ↔ has_black self.
Proof.
  unfold has_red, has_black. split.
  - intros ([x y] & v & Hv & Hpos). rewrite invert_lookup in Hv.
    destruct (sparse_board self !! _) as [w|] eqn:E; [|done].
    injection Hv as <-. exists (x, height self - y - 1), w. split; [done|lia].
  - intros ([x y] & v & Hv & Hneg). apply invert_lookup_Some in Hv.
    exists (x, height self - y - 1), (- v). split; [done|lia].
Qed.

Lemma has_black_invert self : has_black (invert self) ↔ has_red self.
Proof.
  unfold has_red, has_black. split.
  - intros ([x y] & v & Hv & Hneg). rewrite invert_lookup in Hv.
    destruct (sparse_board self !! _) as [w|] eqn:E; [|done].
    injection Hv as <-. exists (x, height self - y - 1), w. split; [done|lia].
  - intros ([x y] & v & Hv & Hpos). apply invert_lookup_Some in Hv.
    exists (x, height self - y - 1), (- v). split; [done|lia].
Qed.

Lemma has_red_dec self : has_red self ∨ ¬ has_red self.
Proof.
  destruct (decide (Forall (λ v, ¬ 0 < v) (values self))) as [Hall|Hex].
  - right. intros (k & v & Hk & Hv). rewrite values_Forall in Hall. by apply (Hall k v).
  - left. apply not_Forall_Exists in Hex; [|apply _]. apply Exists_exists in Hex as (v & Hin & Hv).
    unfold values in Hin. apply list_elem_of_fmap in Hin as ([k v'] & -> & Hin).
    apply elem_of_map_to_list in Hin. exists k, v'. split; [done|]. simpl in Hv. lia.
Qed.

Lemma has_black_dec self : has_black self ∨ ¬ has_black self.
Proof.
  destruct (has_red_dec (invert self)) as [Hr|Hr]; rewrite has_red_invert in Hr; auto.
Qed.

(** X5.  Inverting a board swaps the winner: when the board holds a red or
    a black piece, [is_end] of the inverted board is minus [is_end] of the
    board.  When it holds neither (the empty board), both are minus
    infinity. *)
Theorem is_end_invert (self : SparseBoard) :
  (has_red self ∨ has_black self → is_end (invert self) = float_neg (is_end self)) ∧
  (¬ has_red self → ¬ has_black self →
     is_end (invert self) = NegInf ∧ is_end self = NegInf).
Proof.
  destruct (is_end_spec self) as (Hn & Hp & Hz).
  destruct (is_end_spec (invert self)) as (Hn' & Hp' & Hz').
  split.
  - intros Hsome.
    destruct (has_red_dec self) as [Hr|Hr], (has_black_dec self) as [Hb|Hb].
    + rewrite Hz by done.
      rewrite Hz'; [reflexivity|by apply has_red_invert|by apply has_black_invert].
    + rewrite Hp by done. rewrite Hn'; [reflexivity|by rewrite has_red_invert].
    + rewrite Hn by done.
      rewrite Hp'; [reflexivity|by apply has_red_invert|by rewrite has_black_invert].
    + tauto.
  - intros Hr Hb. split; [|by apply Hn]. apply Hn'. by rewrite has_red_invert.
Qed.

Lemma Zsum_opp (l : list Z) : Zsum (Z.opp <$> l) = - Zsum l.
Proof.
  induction l as [|a l IH]; [done|].
  change (Zsum (Z.opp <$> a :: l)) with (- a + Zsum (Z.opp <$> l)).
  change (Zsum (a :: l)) with (a + Zsum l). lia.
Qed.

Lemma Zsum_Permutation (l1 l2 : list Z) : l1 ≡ₚ l2 → Zsum l1 = Zsum l2.
Proof.
  induction 1 as [|a l1 l2 _ IH|a b l|l1 l2 l3 _ IH1 _ IH2]; [done|..].
  - change (a + Zsum l1 = a + Zsum l2). lia.
  - change (b + (a + Zsum l) = a + (b + Zsum l)). lia.
  - lia.
Qed.

(** X6.  The static evaluation of the inverted board is minus the one of the
    board; on the empty board both raise [ZeroDivisionError]. *)
Theorem evaluate_invert (self : SparseBoard) :
  evaluate (invert self)
  = match evaluate self with
    | Ok f => Ok (float_neg f)
    | Raise e => Raise e
    end ∧
  utility (invert self) = evaluate (invert self).
Proof.
  split; [|done].
  unfold evaluate. rewrite !evaluate_totals, !Z.add_0_l.
  rewrite (Permutation_length (values_invert self)), length_fmap.
  rewrite (Zsum_Permutation _ _ (values_invert self)), Zsum_opp.
  unfold true_div. destruct (Z.of_nat (length (values self)) =? 0); [done|].
  do 2 f_equal. unfold Qdiv, Qmult, Qopp, inject_Z. cbn [Qnum Qden].
  by rewrite Z.mul_opp_l.
Qed.

(** ** Successors are positions of the data model *)

Lemma in_board_same_size self b' loc :
  width b' = width self → height b' = height self →
  in_board b' loc = in_board self loc.
Proof. unfold in_board. by intros -> ->. Qed.

Lemma crowned_legal self val dest_y :
  is_piece val →
  is_piece (crowned self val dest_y) ∧
  (Z.abs (crowned self val dest_y) = 1 →
   dest_y ≠ king_row self (crowned self val dest_y)).
Proof.
  unfold crowned, king_row, is_piece.
  intros [-> | [-> | [-> | ->]]]; simpl;
    repeat (case_match; simpl); split; auto; try lia; intros; try lia.
Qed.

(** Putting the crowned piece on a square of the board, after taking pieces
    off, gives a position of the data model again. *)
Lemma place_crowned_legal (self : SparseBoard) (cells : gmap (Z * Z) Z)
    (dest : Z * Z) (val : Z) :
  legal_position self → is_piece val → in_board self dest = true →
  (∀ k v, cells !! k = Some v → sparse_board self !! k = Some v) →
  legal_on self (with_cells self (<[dest := crowned self val dest.2]> cells)).
Proof.
  intros [Hvalid Hmen] Hval Hdest Hsub.
  destruct (crowned_legal self val dest.2 Hval) as [Hpiece Hrow].
  split; [|done]. split.
  - intros k v Hk. simpl in Hk.
    rewrite (in_board_same_size self) by done.
    destruct (decide (k = dest)) as [->|Hne].
    + rewrite lookup_insert_eq in Hk. by injection Hk as <-.
    + rewrite lookup_insert_ne in Hk by done. by apply Hvalid, Hsub.
  - intros k v Hk Hman. simpl in Hk.
    change (king_row (with_cells self _) v) with (king_row self v).
    destruct (decide (k = dest)) as [->|Hne].
    + rewrite lookup_insert_eq in Hk. injection Hk as <-. by apply Hrow.
    + rewrite lookup_insert_ne in Hk by done. apply (Hmen k v); [by apply Hsub|done].
Qed.

Lemma perform_move_legal self x y move nb :
  legal_position self → in_board self (x + move.1, y + move.2) = true →
  _perform_move self x y move = Ok nb → legal_on self nb.
Proof.
  intros Hlegal Hdest. unfold _perform_move, getitem, delitem, _copy. simpl.
  destruct (sparse_board self !! (x, y)) as [val|] eqn:Hval; [|done]. simpl.
  intros [= <-].
  apply (place_crowned_legal self _ (x + move.1, y + move.2) val); [done| |done|].
  - by apply Hlegal in Hval as [? _].
  - intros k v Hk. by apply lookup_delete_Some in Hk as [_ ?].
Qed.

Lemma perform_jump_legal self x y move nb :
  legal_position self → in_board self (x + move.1 * 2, y + move.2 * 2) = true →
  _perform_jump self x y move = Ok nb → legal_on self nb.
Proof.
  intros Hlegal Hdest. unfold _perform_jump, getitem, delitem, _copy. simpl.
  destruct (sparse_board self !! (x, y)) as [val|] eqn:Hval; [|done]. simpl.
  destruct (delete (x, y) (sparse_board self) !! (x + move.1, y + move.2)); [|done].
  simpl. intros [= <-].
  apply (place_crowned_legal self _ (x + move.1 * 2, y + move.2 * 2) val); [done| |done|].
  - by apply Hlegal in Hval as [? _].
  - intros k v Hk. apply lookup_delete_Some in Hk as [_ Hk].
    by apply lookup_delete_Some in Hk as [_ ?].
Qed.

Lemma legal_on_trans self nb b' : legal_on self nb → legal_on nb b' → legal_on self b'.
Proof. intros (_ & Hw & Hh) (? & Hw' & Hh'). split; [done|]. split; congruence. Qed.

Lemma follow_jump_legal (fuel : nat) : ∀ self x y move is_king player l,
  legal_position self → in_board self (x + move.1 * 2, y + move.2 * 2) = true →
  _follow_jump fuel self x y move is_king player = Ok l →
  Forall (legal_on self) l.
Proof.
  induction fuel as [|fuel IH]; intros self x y move is_king player l Hlegal Hdest Hrun;
    [done|].
  rewrite follow_jump_S in Hrun.
  apply bind_Ok_inv in Hrun as (nb & Hnb & Hrun).
  apply bind_Ok_inv in Hrun as (succs & Hfold & Hrun).
  pose proof (perform_jump_legal self x y move nb Hlegal Hdest Hnb) as Hnb_legal.
  assert (Forall (legal_on self) succs) as Hsuccs.
  { revert Hfold. apply foldlM_preserves; [|constructor].
    intros acc move' acc' Hacc _ Hstep.
    destruct (occupation self _) as [mo|]; [|by injection Hstep as <-].
    destruct (jump_open mo _ player) eqn:Hopen; [|by injection Hstep as <-].
    apply bind_Ok_inv in Hstep as (more & Hmore & [= <-]).
    apply Forall_app. split; [done|].
    apply jump_open_landing in Hopen.
    destruct Hnb_legal as (? & Hw & Hh).
    eapply Forall_impl.
    - eapply (IH nb); [done| |exact Hmore]. by rewrite (in_board_same_size self).
    - intros b'. by apply legal_on_trans. }
  injection Hrun as <-. case_bool_decide; [|done].
  apply Forall_app. split; [done|]. by constructor.
Qed.

Lemma try_move_legal self player x y val acc move acc' :
  legal_position self →
  Forall (legal_on self) acc.1 ∧ Forall (legal_on self) acc.2 →
  try_move self player x y val acc move = Ok acc' →
  Forall (legal_on self) acc'.1 ∧ Forall (legal_on self) acc'.2.
Proof.
  intros Hlegal [Hms Hjs]. unfold try_move.
  destruct (occupation self (x + move.1, y + move.2)) as [mo|] eqn:Hmo;
    [|by intros [= <-]].
  destruct (Z.eqb_spec mo 0) as [->|Hne]; simpl.
  - intros (nb & Hnb & [= <-])%bind_Ok_inv. simpl. split; [|done].
    apply Forall_app. split; [done|]. constructor; [|done].
    apply occupation_Some in Hmo as [Hdest _]. by eapply perform_move_legal.
  - destruct (jump_open mo _ player) eqn:Hopen; [|by intros [= <-]].
    intros (more & Hmore & [= <-])%bind_Ok_inv. simpl. split; [done|].
    apply Forall_app. split; [done|].
    apply jump_open_landing in Hopen. by eapply follow_jump_legal.
Qed.

Lemma collect_successors_legal self player ms js :
  legal_position self → collect_successors self player = Ok (ms, js) →
  Forall (legal_on self) ms ∧ Forall (legal_on self) js.
Proof.
  intros Hlegal Hrun. unfold collect_successors in Hrun.
  revert Hrun.
  apply (foldlM_preserves
           (λ acc, Forall (legal_on self) acc.1 ∧ Forall (legal_on self) acc.2)
           (try_piece self player) _); [|by split; constructor].
  intros acc [[x y] val] acc' Hacc _ Hstep. unfold try_piece in Hstep.
  destruct (0 <? val * player); [|by injection Hstep as <-].
  revert Hstep.
  apply (foldlM_preserves
           (λ acc, Forall (legal_on self) acc.1 ∧ Forall (legal_on self) acc.2)
           (try_move self player x y val) _); [|done].
  intros acc0 move acc0' Hacc0 _. by apply try_move_legal.
Qed.

Lemma legal_no_zero self : legal_position self → no_zero self.
Proof.
  intros [Hvalid _] k Hk. apply Hvalid in Hk as [Hp _].
  unfold is_piece in Hp. lia.
Qed.

Section SuccessorFacts.
Context (str_hash : string → Z).

(** X7.  From a position of the data model (every occupied square on the
    board and holding a piece, no man on its own king row) [get_successors]
    raises nothing, and every board it returns is again such a position, on
    a board of the same width and height. *)
Theorem successors_are_legal_positions (self : SparseBoard) (s : Z) :
  legal_position self →
  ∃ succs, get_successors str_hash self s = Ok succs ∧
           ∀ b', b' ∈ succs →
                 legal_position b' ∧ width b' = width self ∧ height b' = height self.
Proof.
  intros Hlegal. unfold get_successors.
  destruct (collect_successors_spec self s (legal_no_zero self Hlegal))
    as (ms & js & Hrun & _).
  destruct (collect_successors_legal self s ms js Hlegal Hrun) as [Hms Hjs].
  rewrite Hrun, bind_Ok. cbv beta iota. eexists. split; [done|].
  intros b' Hin%unique_by_hash_subset. rewrite Forall_forall in Hms, Hjs.
  destruct (0 <? length js)%nat; [by apply Hjs|by apply Hms].
Qed.

Lemma unique_fold_hashes l : ∀ acc,
  NoDup (__hash__ str_hash <$> acc.1) →
  acc.2 = list_to_set (__hash__ str_hash <$> acc.1) →
  NoDup (__hash__ str_hash <$> (foldl (unique_step str_hash) acc l).1) ∧
  (foldl (unique_step str_hash) acc l).2
    = list_to_set (__hash__ str_hash <$> acc.1) ∪ list_to_set (__hash__ str_hash <$> l) ∧
  (foldl (unique_step str_hash) acc l).2
    = list_to_set (__hash__ str_hash <$> (foldl (unique_step str_hash) acc l).1).
Proof.
  induction l as [|b l IH]; intros acc Hnd Hset; simpl.
  - split; [done|]. split; [|done]. rewrite Hset. set_solver.
  - destruct (IH (unique_step str_hash acc b)) as (Hnd' & Hall & Hset').
    + unfold unique_step. case_decide as Hnew; simpl; [|done].
      rewrite fmap_app. apply NoDup_app. split; [done|]. split; [|apply NoDup_singleton].
      intros h Hh [->|[]%elem_of_nil]%elem_of_cons. apply Hnew. rewrite Hset.
      by apply elem_of_list_to_set.
    + unfold unique_step. case_decide as Hnew; simpl; [|done].
      rewrite fmap_app, list_to_set_app_L, Hset. simpl. set_solver.
    + split; [done|]. split; [|done]. rewrite Hall.
      unfold unique_step. case_decide as Hnew; simpl.
      * rewrite fmap_app, list_to_set_app_L. simpl. set_solver.
      * rewrite Hset in Hnew. set_solver.
Qed.

(** X8.  The boards that [get_successors] returns have pairwise different
    hashes, hence pairwise different mappings: no position is listed
    twice. *)
Theorem successors_without_repeats (self : SparseBoard) (s : Z)
    (succs : list SparseBoard) :
  get_successors str_hash self s = Ok succs →
  NoDup (__hash__ str_hash <$> succs) ∧ NoDup (sparse_board <$> succs).
Proof.
  unfold get_successors. intros ([ms js] & _ & [= <-])%bind_Ok_inv.
  set (l := if (0 <? length js)%nat then js else ms).
  assert (NoDup (__hash__ str_hash <$> unique_by_hash str_hash l)) as Hnd.
  { unfold unique_by_hash.
    destruct (unique_fold_hashes l ([], ∅)) as (Hnd & _); [constructor|done|done]. }
  split; [done|].
  apply (NoDup_fmap_1 (λ m, str_hash (json_dumps (sorted (map_to_list m))))).
  by rewrite <- list_fmap_compose.
Qed.

(** X9.  When the side to move has no piece on the board (on the empty
    board in particular), [get_successors] returns the empty list. *)
Theorem no_piece_no_successor (self : SparseBoard) (s : Z) :
  (∀ k v, sparse_board self !! k = Some v → ¬ 0 < v * s) →
  get_successors str_hash self s = Ok [].
Proof.
  intros Hnone. unfold get_successors, collect_successors.
  destruct (foldlM_invariant (λ acc, acc = ([], []))
              (λ item : Z * Z * Z, sparse_board self !! item.1 = Some item.2)
              (try_piece self s) (map_to_list (sparse_board self)))
    with (acc := ([], []) : list SparseBoard * list SparseBoard)
    as (acc & -> & ->); [| |done|done].
  - intros acc [[x y] val] -> Hitem. unfold try_piece.
    apply Hnone in Hitem. simpl in Hitem.
    destruct (Z.ltb_spec 0 (val * s)); [lia|]. eauto.
  - apply Forall_forall. intros [k v] Hin. by apply elem_of_map_to_list in Hin.
Qed.
End SuccessorFacts.

Lemma legal_position_decide self :
  bool_decide (map_Forall (λ k v, is_piece v ∧ in_board self k = true ∧
                                  (Z.abs v = 1 → k.2 ≠ king_row self v))
                 (sparse_board self)) = true →
  legal_position self.
Proof.
  intros Hall%bool_decide_eq_true. split.
  - intros k v Hk. apply Hall in Hk. tauto.
  - intros k v Hk. apply Hall in Hk. tauto.
Qed.

Lemma successors_are_legal_positions_witness :
  legal_position crowning_jump_board ∧
  ∃ succs, get_successors sample_str_hash crowning_jump_board 1 = Ok succs ∧
           ∀ b', b' ∈ succs →
                 legal_position b' ∧ width b' = 8 ∧ height b' = 8.
Proof.
  assert (legal_position crowning_jump_board) as Hlegal.
  { apply legal_position_decide. by vm_compute. }
  split; [exact Hlegal|].
  exact (successors_are_legal_positions sample_str_hash crowning_jump_board 1 Hlegal).
Defined.

Lemma successors_without_repeats_witness :
  ∃ succs, get_successors sample_str_hash ring_board 1 = Ok succs ∧
           NoDup (__hash__ sample_str_hash <$> succs) ∧
           NoDup (sparse_board <$> succs).
Proof.
  destruct (get_successors sample_str_hash ring_board 1) as [succs|e] eqn:Hrun.
  - exists succs. split; [reflexivity|].
    exact (successors_without_repeats sample_str_hash ring_board 1 succs Hrun).
  - by vm_compute in Hrun.
Defined.

Lemma no_piece_no_successor_witness :
  get_successors sample_str_hash crowning_jump_on (-1) = Ok [].
Proof.
  apply no_piece_no_successor.
  apply (bool_decide_unpack (map_Forall (λ _ v, ¬ 0 < v * -1) (sparse_board crowning_jump_on))).
  by vm_compute.
Defined.

(** X10.  [_perform_move] raises [KeyError] exactly when the square it moves
    from is empty, and [_perform_jump] exactly when that square or the jumped
    square is empty or the two are the same square; otherwise each returns a
    board. *)
Theorem perform_raises_on_missing_piece (self : SparseBoard) (x y : Z) (move : Z * Z) :
  (_perform_move self x y move = Raise KeyError ↔ sparse_board self !! (x, y) = None) ∧
  (sparse_board self !! (x, y) ≠ None → is_Ok (_perform_move self x y move)) ∧
  (_perform_jump self x y move = Raise KeyError ↔
     sparse_board self !! (x, y) = None ∨
     sparse_board self !! (x + move.1, y + move.2) = None ∨
     (x + move.1, y + move.2) = (x, y)) ∧
  (sparse_board self !! (x, y) ≠ None →
   sparse_board self !! (x + move.1, y + move.2) ≠ None →
   (x + move.1, y + move.2) ≠ (x, y) → is_Ok (_perform_jump self x y move)).
Proof.
  unfold _perform_move, _perform_jump, getitem, delitem, _copy, is_Ok. simpl.
  destruct (sparse_board self !! (x, y)) as [val|] eqn:Hval; simpl.
  - destruct (decide ((x + move.1, y + move.2) = (x, y))) as [Heq|Hne].
    + rewrite Heq, lookup_delete_eq. simpl. repeat split; try done; eauto.
    + rewrite lookup_delete_ne by done.
      destruct (sparse_board self !! (x + move.1, y + move.2)) eqn:Hmid; simpl;
        repeat split; try done; eauto; intros [|[|]]; done.
  - repeat split; try done; eauto.
Qed.

(** ** The strategy map *)

Lemma float_lt_irrefl a : float_lt a a = false.
Proof.
  destruct a as [|q| |]; simpl; try done.
  apply negb_false_iff, Qle_bool_iff, Qle_refl.
Qed.

Lemma float_lt_asym a b : float_lt a b = true → float_lt b a = false.
Proof.
  destruct a as [|p| |], b as [|q| |]; simpl; try done.
  intros Hlt%negb_true_iff. apply negb_false_iff, Qle_bool_iff.
  destruct (Qlt_le_dec q p) as [Hqp|Hpq]; [|done].
  apply Qlt_le_weak, Qle_bool_iff in Hqp. congruence.
Qed.

(** X11.  After [update_strategy] for the side [player] (1 or -1) the
    strategy map has an entry for [(board_hash, player)]; it is the entry
    stored before or the one offered, and its score, seen from [player], is
    below neither the score offered nor the score stored before.  No other
    entry and no other field changes. *)
Theorem update_strategy_keeps_best (self : ExploreState)
    (current_board : SparseBoard) (board_hash : Z) (successor : SparseBoard)
    (player : Z) (score : pyfloat) :
  player = 1 ∨ player = -1 →
  let self' := update_strategy self current_board board_hash successor player score in
  (∃ b' s', strategy self' !! (board_hash, player) = Some (b', s') ∧
     float_lt (float_mul_int s' player) (float_mul_int score player) = false ∧
     ((b', s') = (successor, score) ∨
      strategy self !! (board_hash, player) = Some (b', s')) ∧
     ∀ b0 s0, strategy self !! (board_hash, player) = Some (b0, s0) →
              float_lt (float_mul_int s' player) (float_mul_int s0 player) = false) ∧
  (∀ k, k ≠ (board_hash, player) → strategy self' !! k = strategy self !! k) ∧
  score_cache self' = score_cache self ∧
  use_score_cache self' = use_score_cache self ∧
  cache_hits self' = cache_hits self.
Proof.
  intros _. unfold update_strategy.
  destruct (strategy self !! (board_hash, player)) as [[b0 s0]|] eqn:Hold; simpl.
  - destruct (float_lt (float_mul_int s0 player) (float_mul_int score player)) eqn:Hlt; simpl.
    + split; [|split; [|done]].
      * exists successor, score. rewrite lookup_insert_eq.
        split; [done|]. split; [apply float_lt_irrefl|]. split; [by left|].
        intros b1 s1 [= <- <-]. by apply float_lt_asym.
      * intros k Hk. by rewrite lookup_insert_ne.
    + split; [|done]. exists b0, s0. rewrite Hold.
      split; [done|]. split; [done|]. split; [by right|].
      intros b1 s1 [= <- <-]. apply float_lt_irrefl.
  - split; [|split; [|done]].
    + exists successor, score. rewrite lookup_insert_eq.
      split; [done|]. split; [apply float_lt_irrefl|]. split; [by left|]. done.
    + intros k Hk. by rewrite lookup_insert_ne.
Qed.

Lemma update_strategy_keeps_best_witness :
  let self' := update_strategy (one_move_state sample_str_hash) shuffle_A
                 (__hash__ sample_str_hash shuffle_A) shuffle_D 1 (Finite 2) in
  (∃ b' s', strategy self' !! (__hash__ sample_str_hash shuffle_A, 1) = Some (b', s') ∧
     float_lt (float_mul_int s' 1) (float_mul_int (Finite 2) 1) = false ∧
     ((b', s') = (shuffle_D, Finite 2) ∨
      strategy (one_move_state sample_str_hash) !! (__hash__ sample_str_hash shuffle_A, 1)
        = Some (b', s')) ∧
     ∀ b0 s0, strategy (one_move_state sample_str_hash) !! (__hash__ sample_str_hash shuffle_A, 1)
                = Some (b0, s0) →
              float_lt (float_mul_int s' 1) (float_mul_int s0 1) = false) ∧
  (∀ k, k ≠ (__hash__ sample_str_hash shuffle_A, 1) →
        strategy self' !! k = strategy (one_move_state sample_str_hash) !! k) ∧
  score_cache self' = score_cache (one_move_state sample_str_hash) ∧
  use_score_cache self' = use_score_cache (one_move_state sample_str_hash) ∧
  cache_hits self' = cache_hits (one_move_state sample_str_hash).
Proof.
  apply (update_strategy_keeps_best (one_move_state sample_str_hash) shuffle_A
           (__hash__ sample_str_hash shuffle_A) shuffle_D 1 (Finite 2)).
  left. reflexivity.
Defined.

(** ** The value caches *)

(** X12.  A call to [get_utility] that returns leaves its answer in the
    utility cache under [board_hash]; asked again for the same board it gives
    the same answer and changes nothing, and with the cache switched on it
    gives that answer for whatever board is passed with this hash.  The call
    writes no other entry and never touches the evaluation cache. *)
Theorem get_utility_answer_is_kept (self self' : ValueCaches)
    (board : SparseBoard) (board_hash : Z) (v : pyfloat) :
  get_utility self board board_hash = Ok (v, self') →
  utility_cache self' !! board_hash = Some v ∧
  get_utility self' board board_hash = Ok (v, self') ∧
  (use_utility_cache self = true →
   ∀ board', get_utility self' board' board_hash = Ok (v, self')) ∧
  (∀ h, h ≠ board_hash → utility_cache self' !! h = utility_cache self !! h) ∧
  evaluation_cache self' = evaluation_cache self ∧
  use_utility_cache self' = use_utility_cache self ∧
  use_evaluation_cache self' = use_evaluation_cache self.
Proof.
  unfold get_utility.
  destruct (use_utility_cache self) eqn:Huse.
  - destruct (utility_cache self !! board_hash) as [cached|] eqn:Hhit.
    + intros [= <- <-]. rewrite Huse, Hhit. repeat split; done.
    + destruct (utility board) as [u|e] eqn:Hu; simpl; [|done].
      intros [= <- <-]. simpl. rewrite lookup_insert_eq.
      repeat split; try done. intros h Hh. by rewrite lookup_insert_ne.
  - destruct (utility board) as [u|e] eqn:Hu; simpl; [|done].
    intros [= <- <-]. simpl. rewrite lookup_insert_eq, insert_insert_eq. repeat split; try done.
    intros h Hh. by rewrite lookup_insert_ne.
Qed.

Lemma get_utility_answer_is_kept_witness :
  ∃ v self',
    get_utility (mkValueCaches ∅ ∅ true true) cornered_king 7 = Ok (v, self') ∧
    utility_cache self' !! 7 = Some v ∧
    ∀ board', get_utility self' board' 7 = Ok (v, self').
Proof.
  destruct (get_utility (mkValueCaches ∅ ∅ true true) cornered_king 7)
    as [[v self']|e] eqn:Hrun.
  - exists v, self'. split; [reflexivity|].
    destruct (get_utility_answer_is_kept _ _ _ _ _ Hrun) as (Hkept & _ & Hany & _).
    split; [exact Hkept|]. apply Hany. reflexivity.
  - by vm_compute in Hrun.
Defined.

(** X13.  [get_utility] and [get_evaluation] do not interfere: called one
    after the other, in either order and each with its own board and hash,
    they give the same two answers and leave the same caches, or raise in
    both orders. *)
Theorem value_caches_commute (self : ValueCaches)
    (b1 b2 : SparseBoard) (h1 h2 : Z) :
  ('(u, s1) ← get_utility self b1 h1;
   '(e, s2) ← get_evaluation s1 b2 h2; Ok (u, e, s2))
  = ('(e, s1) ← get_evaluation self b2 h2;
     '(u, s2) ← get_utility s1 b1 h1; Ok (u, e, s2)).
Proof.
  unfold get_utility, get_evaluation, utility, evaluate.
  rewrite !evaluate_totals. unfold true_div.
  destruct self as [ec uc uec uuc]. simpl.
  destruct (0 + Z.of_nat (length (values b1)) =? 0),
           (0 + Z.of_nat (length (values b2)) =? 0);
    destruct uuc, uec; simpl;
    destruct (uc !! h1) eqn:E1; simpl; rewrite ?E1;
    destruct (ec !! h2) eqn:E2; simpl; rewrite ?E1, ?E2; simpl; rewrite ?E1, ?E2;
    done.
Qed.

(** ** Undoing a move *)

(** X14.  On a board of height 8, a move to a free square followed by
    [_perform_inverse_move] from the destination gives exactly one board: the
    board before the move with the moved piece as it is after the move.  So
    the board comes back unchanged when the move crowned nothing, and a man
    crowned by the move comes back as a king, never as a man. *)
Theorem inverse_move_after_move (self : SparseBoard) (x y : Z) (move : Z * Z) (val : Z) :
  height self = 8 →
  sparse_board self !! (x, y) = Some val →
  sparse_board self !! (x + move.1, y + move.2) = None →
  ∃ nb b',
    _perform_move self x y move = Ok nb ∧
    _perform_inverse_move nb (x + move.1) (y + move.2) (- move.1, - move.2) = Ok [b'] ∧
    sparse_board b' = <[(x, y) := crowned self val (y + move.2)]> (sparse_board self) ∧
    (sparse_board b' = sparse_board self ↔ crowned self val (y + move.2) = val).
Proof.
  intros Hh Hval Hfree.
  assert ((x + move.1, y + move.2) ≠ (x, y)) as Hne by congruence.
  eexists _, _. split; [by apply perform_move_Ok|].
  unfold _perform_inverse_move, getitem, delitem, _copy. simpl.
  rewrite lookup_insert_eq. simpl.
  replace ((y + move.2 =? generator_king_row (crowned self val (y + move.2)))
           && (Z.abs (crowned self val (y + move.2)) =? 1)) with false.
  2:{ symmetry. rewrite andb_false_iff, !Z.eqb_neq.
      unfold crowned, king_row, generator_king_row. rewrite Hh.
      repeat match goal with
             | |- context [?a =? ?b] => destruct (Z.eqb_spec a b)
             | |- context [?a <? ?b] => destruct (Z.ltb_spec a b)
             end; lia. }
  simpl. split; [reflexivity|].
  replace (x + move.1 + - move.1) with x by lia.
  replace (y + move.2 + - move.2) with y by lia.
  assert (delete (x + move.1, y + move.2)
            (<[(x + move.1, y + move.2) := crowned self val (y + move.2)]>
               (delete (x, y) (sparse_board self)))
          = delete (x, y) (sparse_board self)) as ->.
  { rewrite delete_insert_eq. apply delete_id. by rewrite lookup_delete_ne. }
  rewrite insert_delete_eq. split; [done|].
  split.
  - intros E. simpl in E.
    pose proof (lookup_insert_eq (sparse_board self) (x, y)
                  (crowned self val (y + move.2))) as Hl.
    rewrite E, Hval in Hl. congruence.
  - intros ->. by apply insert_id.
Qed.

Lemma inverse_move_after_move_witness :
  ∃ nb b',
    _perform_move man_before_crown 2 2 (1, -1) = Ok nb ∧
    _perform_inverse_move nb 3 1 (-1, 1) = Ok [b'] ∧
    sparse_board b' = sparse_board man_before_crown.
Proof.
  destruct (inverse_move_after_move man_before_crown 2 2 (1, -1) 1)
    as (nb & b' & Hmove & Hback & _ & Hsame); [reflexivity..|].
  exists nb, b'. split; [exact Hmove|]. split; [exact Hback|].
  apply Hsame. reflexivity.
Defined.

(** ** End of the game *)

Section TerminalFacts.
Context (str_hash : string → Z).

Lemma int_mul_float_inf_not_finite s q : int_mul_float s NegInf ≠ Finite q.
Proof. unfold int_mul_float. by repeat case_match. Qed.

(** X15.  On a board that stores no zero, [get_terminal_value_and_succ]
    raises nothing; the value it returns is 0 exactly when it returns
    successors, and then these are the successors of the board, which holds
    pieces of both colours.  In every other case the value is infinite or
    undefined and the list is empty. *)
Theorem terminal_value_zero_iff_successors (self : ExploreState)
    (board : SparseBoard) (s : Z) :
  no_zero board →
  ∃ v succs,
    get_terminal_value_and_succ str_hash self board s = Ok (v, succs) ∧
    (succs ≠ [] ↔ v = Finite 0) ∧
    (∀ q, v = Finite q → q = 0%Q) ∧
    (succs ≠ [] →
     get_successors str_hash board s = Ok succs ∧ has_red board ∧ has_black board).
Proof.
  intros Hnz. unfold get_terminal_value_and_succ.
  destruct (is_end_spec board) as (Hnored & Hred & Hboth).
  destruct (decide (has_red board)) as [Hr|Hr].
  - destruct (decide (has_black board)) as [Hb|Hb].
    + rewrite (Hboth Hr Hb). simpl.
      destruct (collect_successors_spec board s Hnz) as (ms & js & Hrun & _).
      unfold get_successors. rewrite Hrun, !bind_Ok. cbv beta iota.
      set (succs := unique_by_hash str_hash _).
      case_bool_decide as Hlen.
      * eexists _, _. split; [done|].
        split; [split; [done|intros E; by apply int_mul_float_inf_not_finite in E]|].
        split; [intros q E; by apply int_mul_float_inf_not_finite in E|done].
      * exists (Finite 0), succs. split; [done|].
        split; [split; [done|]; intros _ ->; by apply Hlen|].
        split; [by intros q [= <-]|]. done.
    + rewrite (Hred Hr Hb). simpl. eexists _, _. split; [done|].
      split; [split; done|]. split; done.
  - rewrite (Hnored Hr). simpl. eexists _, _. split; [done|].
    split; [split; done|]. split; done.
Qed.
End TerminalFacts.

Lemma terminal_value_zero_iff_successors_witness :
  ∃ v succs,
    get_terminal_value_and_succ sample_str_hash one_entry_state crowning_jump_board 1
      = Ok (v, succs) ∧
    (succs ≠ [] ↔ v = Finite 0).
Proof.
  destruct (terminal_value_zero_iff_successors sample_str_hash one_entry_state
              crowning_jump_board 1) as (v & succs & Hrun & Hiff & _).
  - apply no_zero_decide. by vm_compute.
  - exists v, succs. split; [exact Hrun|exact Hiff].
Defined.

(** ** The recovered path *)

Section PathFacts.
Context (str_hash : string → Z).

Lemma last_cons_default {A} (a d : A) l : List.last (a :: l) d = List.last l a.
Proof.
  revert a d. induction l as [|x l IH]; intros a d; [done|].
  change (List.last (a :: x :: l) d) with (List.last (x :: l) d).
  rewrite (IH x d). symmetry. apply (IH x a).
Qed.

Lemma recover_loop_follows self (fuel : nat) : ∀ board player path in_path res,
  recover_loop str_hash fuel self board player path in_path = Ok res →
  ∃ more, res = path ++ more ∧
          follows_strategy str_hash self board player more ∧
          ∀ b' v, strategy self !! (__hash__ str_hash (List.last more board),
                                   player * (-1) ^ Z.of_nat (length more)) = Some (b', v) →
                  __hash__ str_hash b' ∈ in_path ∪ list_to_set (__hash__ str_hash <$> more).
Proof.
  induction fuel as [|fuel IH]; intros board player path in_path res Hrun; [done|].
  simpl in Hrun.
  destruct (strategy self !! (__hash__ str_hash board, player)) as [[board' v]|] eqn:Hlook.
  2:{ injection Hrun as <-. exists []. rewrite app_nil_r. split; [done|]. split; [done|].
      intros b' v'. simpl. rewrite Z.mul_1_r, Hlook. done. }
  case_decide as Hseen.
  { injection Hrun as <-. exists []. rewrite app_nil_r. split; [done|]. split; [done|].
    intros b' v'. simpl. rewrite Z.mul_1_r, Hlook. intros [= <- <-]. set_solver. }
  apply IH in Hrun as (more & -> & Hfollows & Hend).
  exists (board' :: more). split; [by rewrite <- app_assoc|].
  split; [split; [by exists v|done]|].
  intros b' v'. rewrite last_cons_default.
  replace (player * (-1) ^ Z.of_nat (length (board' :: more)))
    with (player * -1 * (-1) ^ Z.of_nat (length more)).
  2:{ cbn [length]. rewrite Nat2Z.inj_succ, Z.pow_succ_r by lia. lia. }
  intros Hb'. apply Hend in Hb'. rewrite fmap_cons. set_solver.
Qed.

Lemma follows_strategy_hashes self : ∀ more board player,
  follows_strategy str_hash self board player more →
  ∀ b, b ∈ more → __hash__ str_hash b ∈ strategy_hashes str_hash self.
Proof.
  induction more as [|b1 more IH]; intros board player Hf b Hb.
  - by apply elem_of_nil in Hb.
  - destruct Hf as [[v Hv] Hf]. apply elem_of_cons in Hb as [->|Hb].
    + by eapply strategy_hashes_lookup.
    + by eapply IH.
Qed.

(** X16.  [recover_best_path] returns the root followed by boards that follow
    one another in the strategy map, the side changing at every step; the
    path has at most one board per entry of the map after the root, and it is
    not cut short: if the map has an entry for the last board and the side
    then to move, that entry leads to a board whose hash is already on the
    path after the root. *)
Theorem recovered_path_follows_strategy (self : ExploreState)
    (board : SparseBoard) (player : Z) :
  ∃ more,
    recover_best_path str_hash self board player = Ok (board :: more) ∧
    follows_strategy str_hash self board player more ∧
    (length more ≤ size (strategy self))%nat ∧
    ∀ b' v, strategy self !! (__hash__ str_hash (List.last more board),
                             player * (-1) ^ Z.of_nat (length more)) = Some (b', v) →
            __hash__ str_hash b' ∈ __hash__ str_hash <$> more.
Proof.
  destruct (recover_best_path_returns str_hash self board player) as (more & Hrun & Hnd).
  exists more. split; [exact Hrun|].
  unfold recover_best_path in Hrun.
  apply recover_loop_follows in Hrun as (more' & Heq & Hfollows & Hend).
  injection Heq as <-.
  split; [done|]. split.
  - rewrite <- (length_fmap (__hash__ str_hash)).
    rewrite <- (size_list_to_set (C := gset Z)) by done.
    etrans; [|apply strategy_hashes_size].
    apply subseteq_size. intros h Hh%elem_of_list_to_set.
    apply list_elem_of_fmap in Hh as (b & -> & Hb).
    by eapply follows_strategy_hashes.
  - intros b' v Hb'. apply Hend in Hb'. set_solver.
Qed.
End PathFacts.

(** ** Bounds of the evaluation *)

Lemma Zsum_bounds l :
  Forall is_piece l →
  -2 * Z.of_nat (length l) ≤ Zsum l ∧ Zsum l ≤ 2 * Z.of_nat (length l).
Proof.
  induction 1 as [|v l Hv _ IH]; [done|].
  change (Zsum (v :: l)) with (v + Zsum l). cbn [length].
  unfold is_piece in Hv. lia.
Qed.

(** X17.  On a board with at least one piece, all of them of the four piece
    values, [evaluate] returns a number between -2 and 2. *)
Theorem evaluate_within_two (self : SparseBoard) :
  sparse_board self ≠ ∅ →
  (∀ k v, sparse_board self !! k = Some v → is_piece v) →
  ∃ q, evaluate self = Ok (Finite q) ∧
       (inject_Z (-2) <= q)%Q ∧ (q <= inject_Z 2)%Q.
Proof.
  intros Hne Hpieces.
  assert (0 < Z.of_nat (length (values self))) as Hpos.
  { rewrite length_values. apply map_size_non_empty_iff in Hne.
    unfold piece_count. lia. }
  destruct (Zsum_bounds (values self)) as [Hlo Hhi].
  { by apply values_Forall. }
  unfold evaluate. rewrite evaluate_totals, !Z.add_0_l. unfold true_div.
  destruct (Z.eqb_spec (Z.of_nat (length (values self))) 0) as [E|_]; [lia|].
  eexists. split; [done|].
  assert (0 < inject_Z (Z.of_nat (length (values self))))%Q as HposQ.
  { change 0%Q with (inject_Z 0). by rewrite <- Zlt_Qlt. }
  split.
  - apply Qle_shift_div_l; [done|].
    rewrite <- inject_Z_mult, <- Zle_Qle. lia.
  - apply Qle_shift_div_r; [done|].
    rewrite <- inject_Z_mult, <- Zle_Qle. lia.
Qed.

Lemma evaluate_within_two_witness :
  ∃ q, evaluate cornered_king = Ok (Finite q) ∧
       (inject_Z (-2) <= q)%Q ∧ (q <= inject_Z 2)%Q.
Proof.
  apply evaluate_within_two.
  - apply (bool_decide_unpack (sparse_board cornered_king ≠ ∅)). by vm_compute.
  - apply (bool_decide_unpack (map_Forall (λ _ v, is_piece v) (sparse_board cornered_king))).
    by vm_compute.
Defined.
